(** * abilyo: fix validation and patch application

    A shallow embedding of the PatchAgent script (file discovery result,
    whitespace-tolerant span matching, confirmation prompt, per-fix patch
    loop, CLI entry point) and of the Fix Validator contract used by the
    audit script, together with the properties stated for them.

    JavaScript strings are sequences of UTF-16 code units; they are
    modelled as [list N].  File paths and messages, which the program
    never inspects character by character, are Rocq [string]s. *)

From Stdlib Require Import NArith Ascii String.
From stdpp Require Import gmap strings list fin_maps sorting.

(* ===================================================================== *)
(** ** JavaScript strings *)
(* ===================================================================== *)

Module JsString.

(** A string value: its UTF-16 code units. *)
Definition str := list N.

(** A Rocq literal (ASCII only) as a JavaScript string. *)
Definition lit (s : string) : str :=
  map (fun a => N_of_ascii a) (list_ascii_of_string s).

(** The code unit U+0020. *)
Definition SP : N := 32%N.

(** The class [\s] of a regular expression, which is also the set
    removed by [String.prototype.trim]: WhiteSpace and LineTerminator. *)
Definition isWs (c : N) : bool :=
  ((9 <=? c) && (c <=? 13)
   || (c =? 32) || (c =? 160) || (c =? 5760)
   || (8192 <=? c) && (c <=? 8202)
   || (c =? 8232) || (c =? 8233) || (c =? 8239) || (c =? 8287)
   || (c =? 12288) || (c =? 65279))%N.

(** [s.replace(/\s+/g, " ")]: the scan emits one space when it enters a
    run of whitespace and swallows the rest of the run.  [inRun] tells
    whether the previous code unit was whitespace. *)
Fixpoint replaceWsRuns (inRun : bool) (s : str) : str :=
  match s with
  | [] => []
  | c :: t =>
      if isWs c
      then (if inRun then replaceWsRuns true t else SP :: replaceWsRuns true t)
      else c :: replaceWsRuns false t
  end.

Fixpoint trimStart (s : str) : str :=
  match s with
  | [] => []
  | c :: t => if isWs c then trimStart t else s
  end.

Definition trimEnd (s : str) : str := rev (trimStart (rev s)).

(** [s.trim()] *)
Definition trim (s : str) : str := trimEnd (trimStart s).

Fixpoint startsWith (s p : str) : bool :=
  match p, s with
  | [], _ => true
  | _ :: _, [] => false
  | b :: p', a :: s' => (a =? b)%N && startsWith s' p'
  end.

(** [s.indexOf(p)]: the first position at which [p] occurs. *)
Fixpoint indexOf (s p : str) : option nat :=
  if startsWith s p then Some 0
  else match s with
       | [] => None
       | _ :: t => S <$> indexOf t p
       end.

(** [s.includes(p)] *)
Definition includes (s p : str) : bool := bool_decide (is_Some (indexOf s p)).

(** [s.slice(i, j)] for offsets [0 <= i], [0 <= j]; offsets beyond the
    end are clamped and [j < i] gives the empty string, as in
    JavaScript. *)
Definition slice (s : str) (i j : nat) : str := take (j - i) (drop i s).

(** [a === b] on strings. *)
Definition strEq (a b : str) : bool := bool_decide (a = b).

(** [s.toLowerCase()].  Only Basic Latin is mapped; the Unicode case
    table outside it is not modelled (no other code unit lowercases to
    a Basic Latin letter except U+212A KELVIN SIGN, mapped here too). *)
Definition lowerUnit (c : N) : N :=
  if ((65 <=? c) && (c <=? 90))%N then (c + 32)%N
  else if (c =? 8490)%N then 107%N
  else c.

Definition toLowerCase (s : str) : str := map lowerUnit s.

End JsString.

Import JsString.

(* ===================================================================== *)
(** ** Span matcher (PatchAgent, string matching) *)
(* ===================================================================== *)

(** [normalizeWs(s) = s.replace(/\s+/g, " ").trim()] *)
Definition normalizeWs (s : str) : str := trim (replaceWsRuns false s).

(** A text that begins and ends with a code unit that is not whitespace. *)
Inductive solid : str -> Prop :=
| solid_one x : isWs x = false -> solid [x]
| solid_more x mid y : isWs x = false -> isWs y = false -> solid (x :: mid ++ [y]).

(** A text made of whitespace only. *)
Definition allWs (s : str) : Prop := Forall (fun c => isWs c = true) s.

(** The first [Some] produced by [f] along [l]: a [for] loop whose body
    returns from the enclosing function on success. *)
Fixpoint firstSome {A B : Type} (f : A -> option B) (l : list A) : option B :=
  match l with
  | [] => None
  | a :: l' => match f a with
               | Some b => Some b
               | None => firstSome f l'
               end
  end.

(** The inner loop of [findInContent]:
    [for (let j = i + normalNeedle.length; j <= haystack.length; j++)]. *)
Definition scanEnd (haystack normalNeedle : str) (i : nat) : option str :=
  firstSome
    (fun j =>
       let slice := slice haystack i j in
       if strEq (normalizeWs slice) normalNeedle then Some slice else None)
    (seq (i + length normalNeedle)
         (S (length haystack) - (i + length normalNeedle))).

(** The outer loop: [for (let i = 0; i < haystack.length; i++)]. *)
Definition scanStart (haystack normalNeedle : str) : option str :=
  firstSome (scanEnd haystack normalNeedle) (seq 0 (length haystack)).

(** [findInContent(haystack, needle)]; [None] is JavaScript's [null]. *)
Definition findInContent (haystack needle : str) : option str :=
  if includes haystack needle then Some needle
  else
    let normalNeedle := normalizeWs needle in
    let normalHaystack := normalizeWs haystack in
    if negb (includes normalHaystack normalNeedle) then None
    else scanStart haystack normalNeedle.

(** [GetSubstitution] for [String.prototype.replace] with a string
    pattern: there are no captures, so only [$$], [$&], [$`] and [$']
    are special in the replacement text; [$1], [$<] and a lone [$] stay
    literal. *)
Fixpoint getSubstitution (matched preceding following template : str) : str :=
  match template with
  | [] => []
  | c :: t =>
      if (c =? 36)%N then
        match t with
        | [] => [c]
        | d :: t' =>
            if (d =? 36)%N then 36%N :: getSubstitution matched preceding following t'
            else if (d =? 38)%N then matched ++ getSubstitution matched preceding following t'
            else if (d =? 96)%N then preceding ++ getSubstitution matched preceding following t'
            else if (d =? 39)%N then following ++ getSubstitution matched preceding following t'
            else c :: getSubstitution matched preceding following t
        end
      else c :: getSubstitution matched preceding following t
  end.

(** [s.replace(pattern, replacement)] with a string pattern: only the
    first occurrence is replaced. *)
Definition replace (s pattern replacement : str) : str :=
  match indexOf s pattern with
  | None => s
  | Some pos =>
      let following := drop (pos + length pattern) s in
      take pos s
        ++ getSubstitution pattern (take pos s) following replacement
        ++ following
  end.

(* ===================================================================== *)
(** ** Process model: disk, console input, completions *)
(* ===================================================================== *)

(** A regular file: its text and whether the process may read and write
    it ([fs.readFileSync] and [fs.writeFileSync] throw otherwise). *)
Record FileNode := mkFile {
  content : str;
  readable : bool;
  writable : bool
}.

(** File-system calls made by the process, oldest first. *)
Inductive FsCall :=
| CallRead (path : string)
| CallWrite (path : string) (data : str).

(** The mutable state a run threads through: the disk, the number of
    prompts answered so far and the file-system calls issued. *)
Record Proc := mkProc {
  disk : gmap string FileNode;
  asked : nat;
  calls : list FsCall
}.

(** How a computation leaves: it returns, it throws, or the process is
    terminated by [process.exit(code)]. *)
Inductive Completion (A : Type) :=
| Returned (a : A)
| Threw (msg : string)
| Exited (code : Z).
Arguments Returned {A} a.
Arguments Threw {A} msg.
Arguments Exited {A} code.

Definition M (A : Type) : Type := Proc -> Proc * Completion A.

Definition ret {A} (a : A) : M A := fun s => (s, Returned a).
Definition throw {A} (msg : string) : M A := fun s => (s, Threw msg).
Definition exit {A} (code : Z) : M A := fun s => (s, Exited code).

Definition bind {A B} (m : M A) (k : A -> M B) : M B :=
  fun s =>
    match m s with
    | (s', Returned a) => k a s'
    | (s', Threw msg) => (s', Threw msg)
    | (s', Exited code) => (s', Exited code)
    end.

Notation "'let!' x ':=' m 'in' k" := (bind m (fun x => k))
  (at level 10, x name, m at level 100, k at level 200, only parsing).

Definition logCall (c : FsCall) (s : Proc) : Proc :=
  mkProc (disk s) (asked s) (calls s ++ [c]).

(** [fs.readFileSync(path, "utf8")] *)
Definition readFileSync (path : string) : M str :=
  fun s =>
    let s' := logCall (CallRead path) s in
    match disk s !! path with
    | Some f => if readable f then (s', Returned (content f))
                else (s', Threw "EACCES: permission denied")
    | None => (s', Threw "ENOENT: no such file or directory")
    end.

(** The two halves of a surrogate pair. *)
Definition isHighSurrogate (c : N) : bool := ((55296 <=? c) && (c <=? 56319))%N.
Definition isLowSurrogate (c : N) : bool := ((56320 <=? c) && (c <=? 57343))%N.

(** A code unit of either half. *)
Definition isSurrogate (c : N) : bool := isHighSurrogate c || isLowSurrogate c.

(** The text a file holds once a string has been written to it with the
    [utf8] encoding: a high surrogate followed by a low one is one code
    point and is kept; any other surrogate code unit is encoded as
    U+FFFD (what [String.prototype.toWellFormed] computes). *)
Fixpoint toWellFormed (s : str) : str :=
  match s with
  | [] => []
  | c :: t =>
      if isHighSurrogate c then
        match t with
        | d :: t' =>
            if isLowSurrogate d then c :: d :: toWellFormed t'
            else 65533%N :: toWellFormed t
        | [] => [65533%N]
        end
      else if isLowSurrogate c then 65533%N :: toWellFormed t
      else c :: toWellFormed t
  end.

(** [fs.writeFileSync(path, data, "utf8")]: the call is made with
    [data]; the file then holds its UTF-8 encoding. *)
Definition writeFileSync (path : string) (data : str) : M unit :=
  fun s =>
    let s' := logCall (CallWrite path data) s in
    match disk s !! path with
    | Some f =>
        if writable f
        then (mkProc (<[path := mkFile (toWellFormed data) (readable f) (writable f)]>
                        (disk s))
                     (asked s') (calls s'),
              Returned tt)
        else (s', Threw "EACCES: permission denied")
    | None =>
        (mkProc (<[path := mkFile (toWellFormed data) true true]> (disk s))
                (asked s') (calls s'),
         Returned tt)
    end.

(* ===================================================================== *)
(** ** PatchAgent *)
(* ===================================================================== *)

Module Patch.

Record ApprovedFix := mkFix {
  element : string;
  message : string;
  wcagCriteria : string;
  wcagName : string;
  severity : string;
  currentCode : str;
  suggestedFix : str;
  explanation : string
}.

Record PatchResult := mkResult {
  fix_ : ApprovedFix;
  file : string;
  applied : bool;
  reason : option string
}.

(** What [JSON.parse] gives for the report.  A value other than [null]
    whose [approvedFixes] property is absent or falsy is
    [JsonObject None]. *)
Inductive ReportValue :=
| JsonNull
| JsonObject (approvedFixes : option (list ApprovedFix)).

(** The report file as the process finds it: absent, present but not
    readable as JSON ([readFileSync] or [JSON.parse] throws [err]), or
    parsed. *)
Inductive ReportFile :=
| ReportMissing
| ReportUnreadable (err : string)
| ReportJson (v : ReportValue).

(** What a run does not control: the report found at a path, the files
    [walkDir(sourceDir, HTML_EXTENSIONS)] enumerates, and the line the
    operator types at the n-th prompt. *)
Record World := mkWorld {
  reportAt : string -> ReportFile;
  walkDir : string -> list string;
  operator : nat -> str
}.

(** The decision of [askYesNo] on the typed line:
    [answer.trim().toLowerCase() !== "n"]. *)
Definition approves (answer : str) : bool :=
  negb (strEq (toLowerCase (trim answer)) (lit "n")).

(** [askYesNo(question)]: waits for the operator's next line. *)
Definition askYesNo (w : World) : M bool :=
  fun s => (mkProc (disk s) (S (asked s)) (calls s),
            Returned (approves (operator w (asked s)))).

Section Run.
Variable w : World.
Variable dryRun : bool.

(** The loop [for (const filePath of sourceFiles)] for one fix,
    leaving by [break] after the first file with a (truthy) match. *)
Fixpoint patchFix (fix_ : ApprovedFix) (sourceFiles : list string) : M PatchResult :=
  match sourceFiles with
  | [] => ret (mkResult fix_ "" false (Some "currentCode not found in any file"))
  | filePath :: rest =>
      let! original := readFileSync filePath in
      match findInContent original (currentCode fix_) with
      | None | Some [] => patchFix fix_ rest
      | Some found =>
          let patched := replace original found (suggestedFix fix_) in
          if dryRun then ret (mkResult fix_ filePath false (Some "dry-run"))
          else
            let! confirm := askYesNo w in
            if confirm
            then let! done := writeFileSync filePath patched in
                 ret (mkResult fix_ filePath true None)
            else ret (mkResult fix_ filePath false (Some "skipped by user"))
      end
  end.

(** The loop over [approvedFixes], collecting [results]. *)
Fixpoint applyFixes (approvedFixes : list ApprovedFix) (sourceFiles : list string)
  : M (list PatchResult) :=
  match approvedFixes with
  | [] => ret []
  | fix_ :: rest =>
      let! r := patchFix fix_ sourceFiles in
      let! rs := applyFixes rest sourceFiles in
      ret (r :: rs)
  end.

(** [runPatchAgent(reportPath, sourceDir, dryRun)], returning the
    [results] array it has built when it completes. *)
Definition runPatchAgent (reportPath sourceDir : string) : M (list PatchResult) :=
  match reportAt w reportPath with
  | ReportMissing => exit 1
  | ReportUnreadable err => throw err
  | ReportJson JsonNull => throw "Cannot read properties of null"
  | ReportJson (JsonObject fixes) =>
      let approvedFixes := default [] fixes in
      match approvedFixes with
      | [] => exit 0
      | _ :: _ =>
          let sourceFiles := walkDir w sourceDir in
          match sourceFiles with
          | [] => exit 0
          | _ :: _ => applyFixes approvedFixes sourceFiles
          end
      end
  end.
End Run.

(** [process.argv.slice(2).filter((a) => !a.startsWith("--"))] *)
Definition argsOf (argv : list string) : list string :=
  filter (fun a => String.prefix "--" a = false) argv.

(** [process.argv.slice(2).filter((a) => a.startsWith("--"))] *)
Definition flagsOf (argv : list string) : list string :=
  filter (fun a => String.prefix "--" a = true) argv.

(** [flags.includes("--dry-run")] *)
Definition dryRunFlag (argv : list string) : bool :=
  bool_decide ("--dry-run" ∈ flagsOf argv).

(** [main()] on [argv = process.argv.slice(2)]: the exit code of the
    process. *)
Definition main (w : World) (argv : list string) : Proc -> Proc * Z :=
  match argsOf argv with
  | reportPath :: sourceDir :: _ =>
      fun s =>
        match runPatchAgent w (dryRunFlag argv) reportPath sourceDir s with
        | (s', Returned _) => (s', 0%Z)
        | (s', Threw _) => (s', 1%Z)
        | (s', Exited code) => (s', code)
        end
  | _ => fun s => (s, 1%Z)
  end.

(** JavaScript truthiness of what [findInContent] returns: [null] and
    the empty string are falsy. *)
Definition truthy (found : option str) : bool :=
  match found with
  | Some (_ :: _) => true
  | _ => false
  end.

(** Whether the file at [q] holds a match for the fix's [currentCode]. *)
Definition hasMatch (d : gmap string FileNode) (fx : ApprovedFix) (q : string) : bool :=
  match d !! q with
  | Some f => truthy (findInContent (content f) (currentCode fx))
  | None => false
  end.

(** Whether [fs.readFileSync] succeeds on the path [q]. *)
Definition canRead (d : gmap string FileNode) (q : string) : bool :=
  match d !! q with
  | Some f => readable f
  | None => false
  end.

(** The paths of the write calls in a trace. *)
Definition writesOf (cs : list FsCall) : list string :=
  omap (fun c => match c with CallWrite p _ => Some p | CallRead _ => None end) cs.


End Patch.

(* ===================================================================== *)
(** ** Fix Validator and the audit's validation phase *)
(* ===================================================================== *)

Module Validator.

Inductive Method := DomInjection | Skipped.

Record ValidationResult := mkValidation {
  method : Method;
  passed : bool;
  reason : option string
}.

(** A finding of the accessibility checker. *)
Record Violation := mkViolation {
  ruleId : string;
  impact : string;
  affectedSelectors : list string
}.

(** How the promise returned by [validateFix] settles; a rejection is
    with an [Error], of which the message is kept. *)
Inductive Settled :=
| Fulfilled (result : ValidationResult)
| Rejected (msg : string).

(** Modelled from the spec: the live document of section 4.2, as far as
    the validator touches it: which element a selector resolves to, and
    the entire markup of each element. *)
Record LiveDocument := mkDoc {
  index : gmap string nat;
  markupOf : gmap nat str
}.

(** Modelled from the spec: the states of section 4.2 in which an
    external capability is invoked and may throw. *)
Inductive State := INJECTING | CHECKING | REVERTING.

(** Modelled from the spec: the browser session a validation runs
    against (section 6): the exception, if any, that the capability
    invoked in a state throws, the checker, and which findings match
    the issue's original rule. *)
Record Browser := mkBrowser {
  fault : State -> option string;
  runAccessibilityChecks : LiveDocument -> nat -> list Violation;
  matchesOriginalRule : Violation -> bool
}.

(** Modelled from the spec: one atomic mutation, replacing the
    element's entire markup. *)
Definition setMarkup (d : LiveDocument) (el : nat) (code : str) : LiveDocument :=
  mkDoc (index d) (<[el := code]> (markupOf d)).

(** Modelled from the spec: the revert made from [ERROR], the state an
    exception in [INJECTING], [CHECKING] or [REVERTING] leads to: the
    original markup is put back on the same element reference (sections
    4.2 and 7: the document is restored on every code path). *)
Definition bestEffortRevert (d : LiveDocument) (el : nat) (originalCode : str)
  : LiveDocument :=
  setMarkup d el originalCode.

(** Modelled from the spec: the classification after a completed revert
    ([REVERTING] to [VALIDATED] or [MANUAL]). *)
Definition classify (b : Browser) (violations : list Violation) : ValidationResult :=
  match filter (fun v => matchesOriginalRule b v = true) violations with
  | [] => mkValidation DomInjection true None
  | v :: _ =>
      mkValidation DomInjection false
        (Some (if String.eqb (ruleId v) "" then "still reports violations"
               else ruleId v))
  end.

(** Modelled from the spec: [validateFix] is exported by the [mastra]
    module, whose implementation is not among the sources; this follows
    section 4.2 (resolve, inject, check, revert on the same element
    reference, classify; any exception goes to [ERROR], from which the
    revert is made and the result is downgraded to manual with the
    exception text). *)
Definition validateFix (b : Browser) (d : LiveDocument) (selector : string)
                       (proposedCode originalCode : str)
  : LiveDocument * Settled :=
  match index d !! selector with
  | None => (d, Fulfilled (mkValidation Skipped false (Some "element not found")))
  | Some el =>
      match fault b INJECTING with
      | Some e => (bestEffortRevert d el originalCode,
                   Fulfilled (mkValidation DomInjection false (Some e)))
      | None =>
          let injected := setMarkup d el proposedCode in
          match fault b CHECKING with
          | Some e => (bestEffortRevert injected el originalCode,
                       Fulfilled (mkValidation DomInjection false (Some e)))
          | None =>
              let violations := runAccessibilityChecks b injected el in
              match fault b REVERTING with
              | Some e => (bestEffortRevert injected el originalCode,
                           Fulfilled (mkValidation DomInjection false (Some e)))
              | None => (setMarkup injected el originalCode,
                         Fulfilled (classify b violations))
              end
          end
      end
  end.

(** The fields of an issue that the validation phase reads. *)
Record AccessibilityIssue := mkIssue {
  element : string;
  message : string;
  currentCode : str;
  suggestedFix : str
}.

Inductive Status := validated | manual.

Record ValidatedIssue := mkValidated {
  issue : AccessibilityIssue;
  status : Status;
  vreason : option string
}.

(** The body of the audit's validation loop for one issue (audit.ts,
    phase 2): what is pushed onto [validatedIssues] for the completion
    of [validateFix]. *)
Definition recordValidation (i : AccessibilityIssue)
                            (c : Settled) : ValidatedIssue :=
  match c with
  | Fulfilled result =>
      match method result with
      | Skipped => mkValidated i manual (reason result)
      | DomInjection =>
          if passed result then mkValidated i validated None
          else mkValidated i manual (reason result)
      end
  | Rejected msg => mkValidated i manual (Some ("Validation error: " +:+ msg))
  end.

(** The validation loop: issues are validated strictly one after the
    other against the one live document. *)
Fixpoint validateAll (b : Browser) (d : LiveDocument) (issues : list AccessibilityIssue)
  : LiveDocument * list ValidatedIssue :=
  match issues with
  | [] => (d, [])
  | i :: rest =>
      let '(d1, c) := validateFix b d (element i) (suggestedFix i) (currentCode i) in
      let '(d2, vs) := validateAll b d1 rest in
      (d2, recordValidation i c :: vs)
  end.

End Validator.

(* ===================================================================== *)
(** ** Concrete runs used below *)
(* ===================================================================== *)

Module Scenario.
Import Patch.

Definition aFix (cur sug : string) : ApprovedFix :=
  mkFix "b" "Price lacks a currency" "1.3.1" "Info and Relationships" "minor"
        (lit cur) (lit sug) "".

Definition start (d : gmap string FileNode) : Proc := mkProc d 0 [].

(** One page, one approved fix whose replacement contains [$&]. *)
Definition priceFix : ApprovedFix := aFix "<b>5</b>" "<b>$&nbsp;5</b>".
Definition priceDisk : gmap string FileNode :=
  {[ "index.html" := mkFile (lit "<p><b>5</b></p>") true true ]}.
Definition priceWorld : World :=
  mkWorld (fun _ => ReportJson (JsonObject (Some [priceFix])))
          (fun _ => ["index.html"])
          (fun _ => lit "y").

(** A report without an [approvedFixes] list. *)
Definition bareWorld : World :=
  mkWorld (fun _ => ReportJson (JsonObject None))
          (fun _ => ["index.html"])
          (fun _ => []).

(** Two approved fixes; the page the first one matches is read-only. *)
Definition firstFix : ApprovedFix := aFix "<i>a</i>" "<em>a</em>".
Definition secondFix : ApprovedFix := aFix "<i>b</i>" "<em>b</em>".
Definition lockedDisk : gmap string FileNode :=
  {[ "a.html" := mkFile (lit "<i>a</i>") true false;
     "b.html" := mkFile (lit "<i>b</i>") true true ]}.
Definition lockedWorld : World :=
  mkWorld (fun _ => ReportJson (JsonObject (Some [firstFix; secondFix])))
          (fun _ => ["a.html"; "b.html"])
          (fun _ => []).

(** Two pages hold the snippet of the one approved fix. *)
Definition twinDisk : gmap string FileNode :=
  {[ "a.html" := mkFile (lit "<i>a</i>") true true;
     "b.html" := mkFile (lit "<i>a</i>") true true ]}.
Definition twinWorld : World :=
  mkWorld (fun _ => ReportJson (JsonObject (Some [firstFix])))
          (fun _ => ["a.html"; "b.html"])
          (fun _ => []).
End Scenario.

Module ValidatorScenario.
Import Validator.

(** A page with one link, reachable as [#buy]. *)
Definition page : LiveDocument :=
  mkDoc {[ "#buy" := 0 ]} {[ 0 := lit "<a>buy</a>" ]}.

(** A session in which the step taken once the fix has been checked
    throws: the regular revert fails and the validation ends in
    [ERROR]. *)
Definition closing : Browser :=
  mkBrowser (fun st => match st with
                       | REVERTING => Some "Target closed"
                       | _ => None
                       end)
            (fun _ _ => [])
            (fun _ => true).
End ValidatorScenario.

(* ===================================================================== *)
(** ** Normal form of normalized text *)
(* ===================================================================== *)

(** A text in which every whitespace code unit is a single U+0020 that
    does not follow another whitespace code unit; [prevWs] tells whether
    the text is preceded by whitespace. *)
Fixpoint singleSpaced (prevWs : bool) (s : str) : Prop :=
  match s with
  | [] => True
  | c :: t =>
      if isWs c then c = SP /\ prevWs = false /\ singleSpaced true t
      else singleSpaced false t
  end.

(* ===================================================================== *)
(** ** File discovery (PatchAgent) *)
(* ===================================================================== *)

Module Discovery.

(** A directory tree as [fs.statSync] and [fs.readdirSync] show it: a
    regular file, or a directory with its entries in the order
    [readdirSync] lists them. *)
Inductive Node :=
| File
| Dir (entries : Entries)
with Entries :=
| NoEntry
| Entry (name : str) (node : Node) (rest : Entries).

Definition HTML_EXTENSIONS : list str :=
  [lit ".html"; lit ".htm"; lit ".xhtml"].

Definition SKIP_DIRS : list str :=
  [lit "node_modules"; lit ".git"; lit "dist"; lit "build"; lit ".next";
   lit "coverage"].

(** [s.lastIndexOf(".")] *)
Fixpoint lastDot (s : str) : option nat :=
  match s with
  | [] => None
  | c :: t =>
      match lastDot t with
      | Some i => Some (S i)
      | None => if (c =? 46)%N then Some 0 else None
      end
  end.

(** [path.extname(name)] for a name without path separators, which is
    what [readdirSync] returns: the text from the last dot on, and
    nothing when there is no dot, when the only dot leads the name, or
    when the name is [".."]. *)
Definition extname (name : str) : str :=
  match lastDot name with
  | None => []
  | Some 0 => []
  | Some i => if strEq name (lit "..") then [] else drop i name
  end.

(** [exts.has(path.extname(entry).toLowerCase())] for [HTML_EXTENSIONS] *)
Definition hasHtmlExtension (entry : str) : bool :=
  bool_decide (toLowerCase (extname entry) ∈ HTML_EXTENSIONS).

(** The loop of [walkDir(dir, exts)] over the entries of an existing
    directory.  A path is the list of its segments, so that
    [path.join(dir, entry)] is [dir ++ [entry]]. *)
Fixpoint walkEntries (dir : list str) (entries : Entries) : list (list str) :=
  match entries with
  | NoEntry => []
  | Entry entry node rest =>
      (if bool_decide (entry ∈ SKIP_DIRS) then []
       else
         let full := dir ++ [entry] in
         match node with
         | Dir sub => walkEntries full sub
         | File => if hasHtmlExtension entry then [full] else []
         end)
      ++ walkEntries dir rest
  end.

(** [walkDir(dir, HTML_EXTENSIONS)] where [root] is what exists at
    [dir]: nothing, a regular file (on which [readdirSync] throws), or a
    directory. *)
Definition walkDir (dir : list str) (root : option Node) : Completion (list (list str)) :=
  match root with
  | None => Returned []
  | Some File => Threw "ENOTDIR: not a directory"
  | Some (Dir entries) => Returned (walkEntries dir entries)
  end.

(** The directory lists [name] with [node] under it. *)
Inductive hasEntry : Entries -> str -> Node -> Prop :=
| hasEntry_here name node rest : hasEntry (Entry name node rest) name node
| hasEntry_later name node name' node' rest :
    hasEntry rest name node -> hasEntry (Entry name' node' rest) name node.

(** A regular file lies at the relative path [rel] below the entries. *)
Inductive fileAt : Entries -> list str -> Prop :=
| fileAt_here entries name :
    hasEntry entries name File -> fileAt entries [name]
| fileAt_below entries name sub rel :
    hasEntry entries name (Dir sub) -> fileAt sub rel ->
    fileAt entries (name :: rel).

(** The names a directory lists. *)
Fixpoint names (entries : Entries) : list str :=
  match entries with
  | NoEntry => []
  | Entry name _ rest => name :: names rest
  end.

(** No directory of the tree lists a name twice, as in a file system. *)
Fixpoint uniqueNames (entries : Entries) : Prop :=
  match entries with
  | NoEntry => True
  | Entry name node rest =>
      (name ∉ names rest)
      /\ match node with
         | Dir sub => uniqueNames sub
         | File => True
         end
      /\ uniqueNames rest
  end.

(** A small site: two pages at the top, one in a folder, a text file,
    a dot file and a [node_modules] folder holding a page. *)
Definition site : Entries :=
  Entry (lit "index.html") File
    (Entry (lit "docs")
       (Dir (Entry (lit "Guide.HTM") File (Entry (lit "notes.txt") File NoEntry)))
       (Entry (lit "node_modules") (Dir (Entry (lit "pkg.html") File NoEntry))
          (Entry (lit ".html") File
             (Entry (lit "about.xhtml") File NoEntry)))).

End Discovery.

(* ===================================================================== *)
(** ** Patch summary (PatchAgent) *)
(* ===================================================================== *)

Module Summary.
Import Patch.

(** [r.reason?.includes(text)] *)
Definition reasonIncludes (r : PatchResult) (text : string) : bool :=
  match reason r with
  | Some t => includes (lit t) (lit text)
  | None => false
  end.

(** [results.filter((r) => r.applied)] *)
Definition appliedOf (results : list PatchResult) : list PatchResult :=
  filter (fun r => applied r = true) results.

(** [results.filter((r) => !r.applied && r.reason?.includes("not found"))] *)
Definition notFoundOf (results : list PatchResult) : list PatchResult :=
  filter (fun r => applied r = false /\ reasonIncludes r "not found" = true) results.

(** [results.filter((r) => r.reason === "dry-run")] *)
Definition dryrunsOf (results : list PatchResult) : list PatchResult :=
  filter (fun r => reason r = Some "dry-run") results.

(** [results.filter((r) => !r.applied && r.reason === "skipped by user")] *)
Definition skippedOf (results : list PatchResult) : list PatchResult :=
  filter (fun r => applied r = false /\ reason r = Some "skipped by user") results.

End Summary.

(* ===================================================================== *)
(** ** A run with one fix confirmed, one declined and one not found *)
(* ===================================================================== *)

Module MixedRun.
Import Patch.

(** Three approved fixes over two pages: the first is confirmed, the
    second declined, and the snippet of the third is on no page. *)
Definition thirdFix : ApprovedFix := Scenario.aFix "<i>c</i>" "<em>c</em>".
Definition fixes : list ApprovedFix :=
  [Scenario.firstFix; Scenario.secondFix; thirdFix].
Definition files : list string := ["a.html"; "b.html"].
Definition pages : gmap string FileNode :=
  {[ "a.html" := mkFile (lit "<p><i>a</i> and <i>a</i></p>") true true;
     "b.html" := mkFile (lit "<i>b</i>") true true ]}.
Definition world : World :=
  mkWorld (fun _ => ReportJson (JsonObject (Some fixes)))
          (fun _ => files)
          (fun n => match n with 0 => [] | _ => lit " N " end).

(** An operator who declines every prompt. *)
Definition refusing : World :=
  mkWorld (fun _ => ReportJson (JsonObject (Some fixes)))
          (fun _ => files)
          (fun _ => lit "n").
End MixedRun.

(* ===================================================================== *)
(** ** The audit script: prompt, validation and approval phases, report
       text *)
(* ===================================================================== *)

Module Audit.
Import Validator.

(** The decision of the audit script's [askYesNo] on the typed line:
    [answer.toLowerCase() !== "n"] (no trimming here). *)
Definition approves (answer : str) : bool :=
  negb (strEq (toLowerCase answer) (lit "n")).

Section Phases.
Context {Page : Type}.

(** [validateFix] is imported from the [mastra] module and is not among
    the sources: the phases take it as it comes, a function of the page
    state that settles one way or the other. *)
Variable validateFix : Page -> string -> str -> str -> Page * Settled.

(** Phase 2: the loop over [report.issues], with its [try]/[catch]
    around each call of [validateFix]. *)
Fixpoint validateIssues (page : Page) (issues : list AccessibilityIssue)
  : Page * list ValidatedIssue :=
  match issues with
  | [] => (page, [])
  | i :: rest =>
      let '(page1, c) := validateFix page (element i) (suggestedFix i) (currentCode i) in
      let '(page2, vs) := validateIssues page1 rest in
      (page2, recordValidation i c :: vs)
  end.
End Phases.

#[global] Instance Status_eq_dec : EqDecision Status.
Proof. solve_decision. Defined.

(** [validatedIssues.filter((v) => v.status === "validated")] *)
Definition validatedOf (vs : list ValidatedIssue) : list ValidatedIssue :=
  filter (fun v => status v = validated) vs.

(** [validatedIssues.filter((v) => v.status === "manual")] *)
Definition manualOf (vs : list ValidatedIssue) : list ValidatedIssue :=
  filter (fun v => status v = manual) vs.

(** Phase 3: the loop over [validated] that asks for each fix and
    collects [approvedFixes]; [asked] counts the prompts so far. *)
Fixpoint approveFixes (operator : nat -> str) (asked : nat)
                      (validated : list ValidatedIssue) : list AccessibilityIssue :=
  match validated with
  | [] => []
  | v :: rest =>
      if approves (operator asked)
      then issue v :: approveFixes operator (S asked) rest
      else approveFixes operator (S asked) rest
  end.

(** The [approvedFixes] of a run whose validation phase collected [vs]. *)
Definition approvedFixes (operator : nat -> str) (vs : list ValidatedIssue)
  : list AccessibilityIssue :=
  approveFixes operator 0 (validatedOf vs).

(** [value.replace(/\x00([eE]9)/g, "é")]: a NUL followed by [e9] or
    [E9] becomes U+00E9. *)
Fixpoint restoreEAcute (s : str) : str :=
  match s with
  | [] => []
  | a :: t =>
      match t with
      | c :: d :: t' =>
          if ((a =? 0) && ((c =? 101) || (c =? 69)) && (d =? 57))%N
          then 233%N :: restoreEAcute t'
          else a :: restoreEAcute t
      | _ => a :: restoreEAcute t
      end
  end.

(** [value.replace(/\0/g, "")] *)
Definition dropNul (s : str) : str := filter (fun c => c <> 0%N) s.

(** The replacer that [JSON.stringify] applies to every string value of
    the report before it is saved. *)
Definition scrub (value : str) : str := dropNul (restoreEAcute value).

(** The order of the default [Array.prototype.sort] on strings:
    lexicographic on UTF-16 code units, a proper prefix first. *)
Fixpoint strLeb (a b : str) : bool :=
  match a, b with
  | [], _ => true
  | _ :: _, [] => false
  | x :: a', y :: b' => (x <? y)%N || ((x =? y)%N && strLeb a' b')
  end.

Definition strLe (a b : str) : Prop := strLeb a b = true.

#[global] Instance strLe_dec (a b : str) : Decision (strLe a b).
Proof. unfold strLe. apply _. Defined.

(** [s.endsWith(suffix)] *)
Definition endsWith (s suffix : str) : bool := startsWith (rev s) (rev suffix).

(** [f.startsWith("accessibility-report-") && f.endsWith(".json")] *)
Definition isReportName (f : str) : bool :=
  startsWith f (lit "accessibility-report-") && endsWith f (lit ".json").

(** The file the audit falls back on when the agent returned no report:
    [readdirSync(dir).filter(...).sort().reverse()[0]].  On strings,
    which the default order totally orders, the sorted array is the one
    [merge_sort] gives. *)
Definition latestReport (entries : list str) : option str :=
  head (reverse (merge_sort strLe (filter (fun f => isReportName f = true) entries))).

End Audit.

(* ===================================================================== *)
(** ** The agent's tools: extracted code *)
(* ===================================================================== *)

Module Tools.

(** The comment put in place of code that could not be extracted: the
    selector in double quotes between [<!-- Element matching] and the
    three code units the source has before [HTML not extractable via
    selector -->]. *)
Definition placeholder (selector : str) : str :=
  lit "<!-- Element matching " ++ [34%N] ++ selector
    ++ [34%N; 32%N; 226%N; 8364%N; 8221%N]
    ++ lit " HTML not extractable via selector -->".

(** [finalCurrentCode] of the [extract_code_snippets] tool: the
    extracted code when it is truthy, is not the string [null] and is
    not blank once trimmed; otherwise [rawHTML || placeholder]. *)
Definition finalCurrentCode (currentCode rawHTML selector : str) : str :=
  if negb (strEq currentCode [])
     && negb (strEq currentCode (lit "null"))
     && negb (strEq (trim currentCode) [])
  then currentCode
  else if negb (strEq rawHTML []) then rawHTML else placeholder selector.

End Tools.

(* ===================================================================== *)
(** * Properties *)
(* ===================================================================== *)

Import Patch.

Example normalizeWs_collapses_and_trims :
  normalizeWs (lit "  a   b  ") = lit "a b".
Proof. reflexivity. Qed.

Example findInContent_verbatim :
  findInContent (lit "<p>x</p>") (lit "x") = Some (lit "x").
Proof. by vm_compute. Qed.

Example findInContent_absent :
  findInContent (lit "<p>x</p>") (lit "y z") = None.
Proof. by vm_compute. Qed.

(* ---------- occurrence of a pattern ---------- *)

Lemma startsWith_app (p t : str) : startsWith (p ++ t) p = true.
Proof.
  induction p as [|b p IH]; simpl; [by destruct t|].
  rewrite N.eqb_refl. exact IH.
Qed.

Lemma startsWith_inv (s p : str) :
  startsWith s p = true -> exists t, s = p ++ t.
Proof.
  revert s. induction p as [|b p IH]; intros s Hs.
  - by exists s.
  - destruct s as [|a s]; simpl in Hs; [done|].
    apply andb_true_iff in Hs as [Hab Hrest].
    apply N.eqb_eq in Hab. subst b.
    destruct (IH _ Hrest) as [t ->]. by exists t.
Qed.

Lemma indexOf_Some (s p : str) (n : nat) :
  indexOf s p = Some n -> exists b, s = take n s ++ p ++ b /\ n <= length s.
Proof.
  revert n. induction s as [|c s IH]; intros n; cbn [indexOf].
  - destruct (startsWith [] p) eqn:E; [|done].
    intros [= <-]. destruct (startsWith_inv _ _ E) as [t Ht].
    exists t. simpl. split; [done|lia].
  - destruct (startsWith (c :: s) p) eqn:E.
    + intros [= <-]. destruct (startsWith_inv _ _ E) as [t Ht].
      exists t. simpl. split; [done|lia].
    + destruct (indexOf s p) as [k|] eqn:Ek; simpl; [|done].
      intros [= <-]. destruct (IH k eq_refl) as (b & Hb & Hk).
      exists b. simpl. split; [by f_equal|lia].
Qed.

Lemma indexOf_app (a p b : str) : is_Some (indexOf (a ++ p ++ b) p).
Proof.
  induction a as [|c a IH].
  - rewrite app_nil_l.
    assert (indexOf (p ++ b) p = Some 0) as ->; [|eauto].
    destruct (p ++ b) as [|c t] eqn:E; cbn [indexOf];
      by rewrite <- E, startsWith_app.
  - rewrite <- app_comm_cons. cbn [indexOf].
    destruct (startsWith (c :: a ++ p ++ b) p); [eauto|].
    destruct IH as [k ->]. simpl. eauto.
Qed.

Lemma includes_true (s p : str) :
  includes s p = true <-> exists a b, s = a ++ p ++ b.
Proof.
  unfold includes. rewrite bool_decide_eq_true. split.
  - intros [n Hn]. destruct (indexOf_Some _ _ _ Hn) as (b & Hb & _).
    by exists (take n s), b.
  - intros (a & b & ->). apply indexOf_app.
Qed.

Lemma includes_nil (s : str) : includes s [] = true.
Proof. apply includes_true. by exists [], s. Qed.

(* ---------- whitespace runs ---------- *)

Lemma solid_rev (m : str) : solid m -> solid (rev m).
Proof.
  intros [x Hx|x mid y Hx Hy]; [by constructor|].
  change (x :: mid ++ [y]) with ([x] ++ mid ++ [y]).
  rewrite !rev_app_distr. simpl. by constructor.
Qed.

Lemma replaceWsRuns_app (p : bool) (A T : str) (x : N) :
  isWs x = false ->
  replaceWsRuns p (A ++ x :: T) = replaceWsRuns p A ++ x :: replaceWsRuns false T.
Proof.
  intros Hx. revert p. induction A as [|c A IH]; intros p; simpl.
  - by rewrite Hx.
  - destruct (isWs c); [destruct p|]; by rewrite IH.
Qed.

Lemma replaceWsRuns_split (p : bool) (S a rest : str) (x : N) :
  isWs x = false ->
  replaceWsRuns p S = a ++ x :: rest ->
  exists A T, S = A ++ x :: T /\ replaceWsRuns p A = a /\ replaceWsRuns false T = rest.
Proof.
  intros Hx. revert p a. induction S as [|c S IH]; intros p a; simpl.
  - by destruct a.
  - destruct (isWs c) eqn:Hc.
    + destruct p.
      * intros H. destruct (IH _ _ H) as (A & T & -> & HA & HT).
        exists (c :: A), T. simpl. by rewrite Hc.
      * destruct a as [|a0 a]; simpl; intros [= H0 H].
        { subst x. by vm_compute in Hx. }
        destruct (IH _ _ H) as (A & T & -> & HA & HT).
        exists (c :: A), T. simpl. rewrite Hc, HA. by subst.
    + destruct a as [|a0 a]; simpl; intros [= H0 H].
      * subst c. by exists [], S.
      * destruct (IH _ _ H) as (A & T & -> & HA & HT).
        exists (c :: A), T. simpl. rewrite Hc, HA. by subst.
Qed.

Lemma replaceWsRuns_length (p : bool) (s : str) :
  length (replaceWsRuns p s) <= length s.
Proof.
  revert p. induction s as [|c s IH]; intros p; simpl; [lia|].
  destruct (isWs c); [destruct p|]; simpl;
    [specialize (IH true)|specialize (IH true)|specialize (IH false)]; lia.
Qed.

Lemma replaceWsRuns_solid (M : str) :
  solid M -> solid (replaceWsRuns false M).
Proof.
  intros [x Hx|x mid y Hx Hy]; simpl; rewrite Hx.
  - by constructor.
  - rewrite replaceWsRuns_app by done. simpl. by constructor.
Qed.

(** Collapsing is compositional around a solid piece. *)
Lemma replaceWsRuns_around (p : bool) (A M B : str) :
  solid M ->
  replaceWsRuns p (A ++ M ++ B)
  = replaceWsRuns p A ++ replaceWsRuns false M ++ replaceWsRuns false B.
Proof.
  intros [x Hx|x mid y Hx Hy].
  - simpl. rewrite replaceWsRuns_app by done. simpl. by rewrite Hx.
  - rewrite <- !app_comm_cons, replaceWsRuns_app by done.
    simpl. rewrite Hx. rewrite <- !app_assoc. simpl.
    rewrite !replaceWsRuns_app by done. simpl.
    by rewrite <- app_assoc.
Qed.

(** A solid piece of the collapsed text comes from a solid piece of the
    text. *)
Lemma replaceWsRuns_span (S a m b : str) :
  solid m ->
  replaceWsRuns false S = a ++ m ++ b ->
  exists A M B, S = A ++ M ++ B /\ replaceWsRuns false M = m /\ solid M.
Proof.
  intros [x Hx|x mid y Hx Hy] HS.
  - destruct (replaceWsRuns_split _ _ _ _ _ Hx HS) as (A & T & -> & _ & _).
    exists A, [x], T. repeat split; [|by constructor]. simpl. by rewrite Hx.
  - rewrite <- !app_comm_cons in HS.
    destruct (replaceWsRuns_split _ _ _ _ _ Hx HS) as (A & T & -> & _ & HT).
    rewrite <- app_assoc in HT. simpl in HT.
    destruct (replaceWsRuns_split _ _ _ _ _ Hy HT) as (A2 & T2 & -> & HA2 & _).
    exists A, (x :: A2 ++ [y]), T2. repeat split.
    + by rewrite <- !app_comm_cons, <- app_assoc.
    + simpl. rewrite Hx, replaceWsRuns_app by done. by rewrite HA2.
    + by constructor.
Qed.

(* ---------- trimming ---------- *)

Lemma trimStart_suffix (s : str) : exists L, s = L ++ trimStart s.
Proof.
  induction s as [|c s [L HL]]; simpl; [by exists []|].
  destruct (isWs c); [|by exists []].
  exists (c :: L). simpl. by f_equal.
Qed.

Lemma trimStart_head (s : str) :
  trimStart s = [] \/ exists x t, trimStart s = x :: t /\ isWs x = false.
Proof.
  induction s as [|c s IH]; simpl; [by left|].
  destruct (isWs c) eqn:Hc; [done|]. right. by exists c, s.
Qed.

Lemma trimStart_keeps (pre t : str) (x : N) :
  isWs x = false -> exists a, trimStart (pre ++ x :: t) = a ++ x :: t.
Proof.
  intros Hx. induction pre as [|c pre [a Ha]]; simpl.
  - rewrite Hx. by exists [].
  - destruct (isWs c); [by exists a|]. by exists (c :: pre).
Qed.

Lemma trimStart_id (x : N) (t : str) : isWs x = false -> trimStart (x :: t) = x :: t.
Proof. intros Hx. simpl. by rewrite Hx. Qed.

Lemma trim_solid (m : str) : solid m -> trim m = m.
Proof.
  intros Hm. unfold trim, trimEnd.
  assert (trimStart m = m) as ->.
  { destruct Hm; by apply trimStart_id. }
  apply solid_rev in Hm.
  assert (trimStart (rev m) = rev m) as ->.
  { destruct Hm; by apply trimStart_id. }
  apply rev_involutive.
Qed.

Lemma trim_decomp (s : str) : exists L R, s = L ++ trim s ++ R.
Proof.
  unfold trim, trimEnd.
  destruct (trimStart_suffix s) as [L HL].
  destruct (trimStart_suffix (rev (trimStart s))) as [R HR].
  exists L, (rev R). rewrite <- rev_app_distr, <- HR, rev_involutive. exact HL.
Qed.

Lemma trim_cases (s : str) : trim s = [] \/ solid (trim s).
Proof.
  unfold trim, trimEnd.
  destruct (trimStart_head s) as [->|(x & t & Ht & Hx)]; [by left|].
  rewrite Ht. right.
  change (rev (x :: t)) with (rev t ++ [x]).
  destruct (trimStart_keeps (rev t) [] x Hx) as [a Ha]. rewrite Ha.
  destruct (trimStart_head (rev t ++ [x])) as [E|(y & u & Hu & Hy)];
    rewrite Ha in *.
  - by destruct a.
  - rewrite rev_app_distr. simpl.
    destruct a as [|a0 a]; simpl in Hu; injection Hu as <- <-.
    + by constructor.
    + simpl. by constructor.
Qed.

Lemma trim_length (s : str) : length (trim s) <= length s.
Proof.
  destruct (trim_decomp s) as (L & R & H).
  rewrite H at 2. rewrite !length_app. lia.
Qed.

(** Trimming leaves a solid piece in place. *)
Lemma trimStart_keeps_solid (pre m post : str) :
  solid m -> exists a, trimStart (pre ++ m ++ post) = a ++ m ++ post.
Proof.
  intros [x Hx|x mid y Hx Hy]; rewrite <- !app_comm_cons;
    by apply trimStart_keeps.
Qed.

Lemma trim_around (pre m post : str) :
  solid m -> exists a b, trim (pre ++ m ++ post) = a ++ m ++ b.
Proof.
  intros Hm. unfold trim, trimEnd.
  destruct (trimStart_keeps_solid pre m post Hm) as [a ->].
  rewrite !rev_app_distr, <- app_assoc.
  destruct (trimStart_keeps_solid (rev post) (rev m) (rev a) (solid_rev _ Hm))
    as [b ->].
  exists a, (rev b). by rewrite !rev_app_distr, !rev_involutive, <- app_assoc.
Qed.

(* ---------- normalizeWs ---------- *)

Lemma normalizeWs_cases (s : str) : normalizeWs s = [] \/ solid (normalizeWs s).
Proof. apply trim_cases. Qed.

Lemma normalizeWs_length (s : str) : length (normalizeWs s) <= length s.
Proof.
  unfold normalizeWs.
  pose proof (trim_length (replaceWsRuns false s)).
  pose proof (replaceWsRuns_length false s). lia.
Qed.

Lemma normalizeWs_solid (M : str) :
  solid M -> normalizeWs M = replaceWsRuns false M.
Proof. intros HM. apply trim_solid. by apply replaceWsRuns_solid. Qed.

(** Every solid piece of the normalized text is the normalization of a
    piece of the text. *)
Lemma normalized_span (H m : str) :
  solid m ->
  includes (normalizeWs H) m = true ->
  exists A M B, H = A ++ M ++ B /\ normalizeWs M = m.
Proof.
  intros Hm Hinc. apply includes_true in Hinc as (a & b & Hab).
  destruct (trim_decomp (replaceWsRuns false H)) as (L & R & HLR).
  fold (normalizeWs H) in HLR. rewrite Hab in HLR.
  assert (replaceWsRuns false H = (L ++ a) ++ m ++ (b ++ R)) as HS.
  { rewrite HLR. by rewrite <- !app_assoc. }
  destruct (replaceWsRuns_span _ _ _ _ Hm HS) as (A & M & B & -> & HM & HsM).
  exists A, M, B. split; [done|].
  by rewrite normalizeWs_solid.
Qed.

(** A verbatim occurrence is also an occurrence after normalization. *)
Lemma includes_normalized (H N : str) :
  includes H N = true -> includes (normalizeWs H) (normalizeWs N) = true.
Proof.
  intros Hinc. apply includes_true in Hinc as (X & Y & ->).
  destruct (normalizeWs_cases N) as [->|Hm]; [apply includes_nil|].
  destruct (trim_decomp (replaceWsRuns false N)) as (L & R & HLR).
  fold (normalizeWs N) in HLR.
  destruct (replaceWsRuns_span _ _ _ _ Hm HLR) as (A & M & B & -> & HM & HsM).
  unfold normalizeWs at 1.
  replace (X ++ (A ++ M ++ B) ++ Y) with ((X ++ A) ++ M ++ (B ++ Y))
    by (by rewrite <- !app_assoc).
  rewrite replaceWsRuns_around by done. rewrite HM.
  apply includes_true. by apply trim_around.
Qed.

(* ---------- the two scanning loops ---------- *)

Lemma firstSome_seq_Some {B} (f : nat -> option B) (s n : nat) (b : B) :
  firstSome f (seq s n) = Some b ->
  exists k, s <= k < s + n /\ f k = Some b /\ forall k', s <= k' < k -> f k' = None.
Proof.
  revert s. induction n as [|n IH]; intros s; simpl; [done|].
  destruct (f s) as [b'|] eqn:Hs.
  - intros [= ->]. exists s. repeat split; [lia|lia|done|]. intros k' ?; lia.
  - intros H. destruct (IH _ H) as (k & Hk & Hfk & Hbefore).
    exists k. repeat split; [lia|lia|done|].
    intros k' Hk'. destruct (decide (k' = s)) as [->|]; [done|].
    apply Hbefore. lia.
Qed.

Lemma firstSome_seq_None {B} (f : nat -> option B) (s n : nat) :
  firstSome f (seq s n) = None -> forall k, s <= k < s + n -> f k = None.
Proof.
  revert s. induction n as [|n IH]; intros s; simpl; [intros _ k ?; lia|].
  destruct (f s) as [b'|] eqn:Hs; [done|].
  intros H k Hk. destruct (decide (k = s)) as [->|]; [done|].
  apply (IH _ H). lia.
Qed.

Lemma slice_length (h : str) (i j : nat) :
  i <= j <= length h -> length (slice h i j) = j - i.
Proof. intros ?. unfold slice. rewrite length_take, length_drop. lia. Qed.

Lemma slice_middle (A M B : str) :
  slice (A ++ M ++ B) (length A) (length A + length M) = M.
Proof.
  unfold slice. rewrite drop_app_length.
  replace (length A + length M - length A) with (length M) by lia.
  by rewrite take_app_length.
Qed.

Lemma slice_is_span (h : str) (i j : nat) :
  exists A B, h = A ++ slice h i j ++ B.
Proof.
  exists (take i h), (drop (j - i) (drop i h)). unfold slice.
  by rewrite take_drop, take_drop.
Qed.

Lemma scanEnd_Some (h nn r : str) (i : nat) :
  scanEnd h nn i = Some r ->
  exists j, i + length nn <= j <= length h /\ r = slice h i j
            /\ normalizeWs r = nn
            /\ forall j', i + length nn <= j' < j -> normalizeWs (slice h i j') <> nn.
Proof.
  unfold scanEnd. intros H.
  apply firstSome_seq_Some in H as (j & Hj & Hfj & Hbefore).
  unfold strEq in Hfj. case_bool_decide as Hn; [|done].
  injection Hfj as <-.
  exists j. repeat split; [lia|lia|done|].
  intros j' Hj' Heq. specialize (Hbefore j' Hj').
  unfold strEq in Hbefore. by rewrite bool_decide_eq_true_2 in Hbefore.
Qed.

Lemma scanEnd_None (h nn : str) (i : nat) :
  scanEnd h nn i = None ->
  forall j, i + length nn <= j <= length h -> normalizeWs (slice h i j) <> nn.
Proof.
  unfold scanEnd. intros H j Hj Heq.
  pose proof (firstSome_seq_None _ _ _ H j ltac:(lia)) as Hf.
  unfold strEq in Hf. by rewrite bool_decide_eq_true_2 in Hf.
Qed.

Lemma scanStart_Some (h nn r : str) :
  scanStart h nn = Some r ->
  exists i, i < length h /\ scanEnd h nn i = Some r
            /\ forall i', i' < i -> scanEnd h nn i' = None.
Proof.
  unfold scanStart. intros H.
  apply firstSome_seq_Some in H as (i & Hi & Hfi & Hbefore).
  exists i. repeat split; [lia|done|]. intros i' ?. apply Hbefore. lia.
Qed.

Lemma scanStart_None (h nn : str) :
  scanStart h nn = None -> forall i, i < length h -> scanEnd h nn i = None.
Proof.
  unfold scanStart. intros H i Hi.
  apply (firstSome_seq_None _ _ _ H). lia.
Qed.

(** The loops cannot miss: when the normalized haystack contains the
    normalized needle and the haystack is not empty, some start offset
    succeeds. *)
Lemma scanStart_complete (h nn : str) :
  h <> [] ->
  nn = [] \/ solid nn ->
  includes (normalizeWs h) nn = true ->
  is_Some (scanStart h nn).
Proof.
  intros Hh Hnn Hinc.
  destruct (scanStart h nn) as [r|] eqn:Hscan; [eauto|exfalso].
  destruct Hnn as [->|Hsolid].
  - destruct h as [|c h]; [done|].
    apply (scanEnd_None _ _ _ (scanStart_None _ _ Hscan 0 ltac:(simpl; lia)) 0).
    + simpl. lia.
    + reflexivity.
  - destruct (normalized_span _ _ Hsolid Hinc) as (A & M & B & -> & HM).
    assert (M <> []) as HMne.
    { intros ->. rewrite <- HM in Hsolid. inversion Hsolid. }
    assert (length M > 0) by (destruct M; simpl; [done|lia]).
    pose proof (normalizeWs_length M) as Hlen. rewrite HM in Hlen.
    apply (scanEnd_None _ _ (length A)
             (scanStart_None _ _ Hscan (length A)
                ltac:(rewrite !length_app; lia))
             (length A + length M)).
    + rewrite !length_app. lia.
    + by rewrite slice_middle.
Qed.

Lemma findInContent_scan (H N : str) :
  includes H N = false ->
  includes (normalizeWs H) (normalizeWs N) = true ->
  findInContent H N = scanStart H (normalizeWs N).
Proof. intros H1 H2. unfold findInContent. by rewrite H1, H2. Qed.

Lemma includes_false_needle (H N : str) : includes H N = false -> N <> [].
Proof. intros Hinc ->. by rewrite includes_nil in Hinc. Qed.

(** C2 (amended): unless the haystack is empty and the needle is a
    non-empty string of whitespace only, [findInContent] returns [null]
    exactly when the normalized haystack does not contain the normalized
    needle; and whenever it does contain it, the result is a span of the
    haystack whose normalization is the normalized needle. *)
Theorem findInContent_null_iff (H N : str) :
  ~ (H = [] /\ N <> [] /\ normalizeWs N = []) ->
  (findInContent H N = None
     <-> includes (normalizeWs H) (normalizeWs N) = false)
  /\ (includes (normalizeWs H) (normalizeWs N) = true ->
      exists span A B, findInContent H N = Some span
                       /\ H = A ++ span ++ B
                       /\ normalizeWs span = normalizeWs N).
Proof.
  intros Hex.
  assert (includes H N = false ->
          includes (normalizeWs H) (normalizeWs N) = true ->
          exists i r, scanStart H (normalizeWs N) = Some r
                      /\ scanEnd H (normalizeWs N) i = Some r) as Hscan.
  { intros Hv Hn.
    assert (H <> []) as HH.
    { intros ->. destruct (normalizeWs_cases N) as [E|Hs].
      - apply Hex. repeat split; [|done]. by eapply includes_false_needle.
      - destruct (normalized_span [] _ Hs Hn) as (A & M & B & HAB & HM).
        destruct A, M, B; try done. rewrite <- HM in Hs. inversion Hs. }
    destruct (scanStart_complete H _ HH (normalizeWs_cases N) Hn) as [r Hr].
    destruct (scanStart_Some _ _ _ Hr) as (i & _ & Hi & _). eauto. }
  split; [split|].
  - intros Hnone. unfold findInContent in Hnone.
    destruct (includes H N) eqn:Hv; [done|].
    destruct (includes (normalizeWs H) (normalizeWs N)) eqn:Hn; [|done].
    simpl in Hnone. destruct (Hscan eq_refl eq_refl) as (i & r & Hr & _).
    congruence.
  - intros Hn. unfold findInContent.
    destruct (includes H N) eqn:Hv.
    + apply includes_normalized in Hv. congruence.
    + by rewrite Hn.
  - intros Hn. unfold findInContent.
    destruct (includes H N) eqn:Hv.
    + apply includes_true in Hv as (A & B & ->). by exists N, A, B.
    + rewrite Hn. simpl.
      destruct (Hscan eq_refl Hn) as (i & r & Hr & Hi). rewrite Hr.
      destruct (scanEnd_Some _ _ _ _ Hi) as (j & _ & -> & Hnorm & _).
      destruct (slice_is_span H i j) as (A & B & HAB).
      by exists (slice H i j), A, B.
Qed.

Lemma findInContent_null_iff_witness :
  (findInContent (lit "a  b") (lit "a b") = None
     <-> includes (normalizeWs (lit "a  b")) (normalizeWs (lit "a b")) = false)
  /\ (includes (normalizeWs (lit "a  b")) (normalizeWs (lit "a b")) = true ->
      exists span A B, findInContent (lit "a  b") (lit "a b") = Some span
                       /\ lit "a  b" = A ++ span ++ B
                       /\ normalizeWs span = normalizeWs (lit "a b")).
Proof.
  apply (findInContent_null_iff (lit "a  b") (lit "a b")).
  intros [E _]. discriminate E.
Defined.

(** C2, counterexample: on the empty haystack and the needle [" "] the
    normalized haystack contains the normalized needle (both are empty),
    yet [findInContent] returns [null], because the outer loop has no
    start offset to visit. *)
Lemma findInContent_null_iff_counterexample :
  ~ (findInContent [] (lit " ") = None
       <-> includes (normalizeWs []) (normalizeWs (lit " ")) = false).
Proof.
  intros [Hto _]. specialize (Hto eq_refl). vm_compute in Hto. discriminate Hto.
Qed.

(** C3 (amended): for a non-empty haystack in which the needle does not
    occur verbatim but occurs after normalization, [findInContent]
    returns the span [H[i:j]] whose normalization is the normalized
    needle with the earliest start offset [i] and, for that [i], the
    smallest end offset [j]; and on ["<div>  Hello   World</div>"] with
    needle ["<div> Hello World</div>"] it returns the whole haystack. *)
Theorem findInContent_first_span :
  (forall H N : str,
      H <> [] ->
      includes H N = false ->
      includes (normalizeWs H) (normalizeWs N) = true ->
      exists i j,
        i <= j <= length H
        /\ findInContent H N = Some (slice H i j)
        /\ normalizeWs (slice H i j) = normalizeWs N
        /\ forall i' j',
             i' <= j' <= length H ->
             normalizeWs (slice H i' j') = normalizeWs N ->
             i < i' \/ (i = i' /\ j <= j'))
  /\ findInContent (lit "<div>  Hello   World</div>") (lit "<div> Hello World</div>")
     = Some (lit "<div>  Hello   World</div>").
Proof.
  split; [|by vm_compute].
  intros H N HH Hv Hn.
  rewrite (findInContent_scan _ _ Hv Hn).
  destruct (scanStart_complete H _ HH (normalizeWs_cases N) Hn) as [r Hr].
  destruct (scanStart_Some _ _ _ Hr) as (i & Hi & Hend & Hearlier).
  destruct (scanEnd_Some _ _ _ _ Hend) as (j & Hj & -> & Hnorm & Hshorter).
  exists i, j. repeat split; [lia|lia|done|done|].
  intros i' j' Hij' Hnorm'.
  assert (i' + length (normalizeWs N) <= j') as Hlow.
  { pose proof (normalizeWs_length (slice H i' j')) as Hl.
    rewrite Hnorm', slice_length in Hl by done. lia. }
  destruct (decide (i' < i)) as [Hlt|Hge].
  { exfalso. by apply (scanEnd_None _ _ _ (Hearlier _ Hlt) j' ltac:(lia)). }
  destruct (decide (i' = i)) as [->|Hne]; [|left; lia].
  right. split; [done|].
  destruct (decide (j <= j')) as [|Hjlt]; [done|].
  exfalso. by apply (Hshorter j' ltac:(lia)).
Qed.

Lemma findInContent_first_span_witness :
  exists i j,
    i <= j <= length (lit "a  b c")
    /\ findInContent (lit "a  b c") (lit "a b") = Some (slice (lit "a  b c") i j)
    /\ normalizeWs (slice (lit "a  b c") i j) = normalizeWs (lit "a b")
    /\ forall i' j',
         i' <= j' <= length (lit "a  b c") ->
         normalizeWs (slice (lit "a  b c") i' j') = normalizeWs (lit "a b") ->
         i < i' \/ (i = i' /\ j <= j').
Proof.
  apply (proj1 findInContent_first_span (lit "a  b c") (lit "a b")).
  - discriminate.
  - vm_compute. reflexivity.
  - vm_compute. reflexivity.
Defined.

(** C3, counterexample: for the empty haystack and the needle ["  "]
    there is no verbatim occurrence, the normalized haystack contains the
    normalized needle, the span [H[0:0]] normalizes to it, and still no
    span is returned. *)
Lemma findInContent_first_span_counterexample :
  includes [] (lit "  ") = false
  /\ includes (normalizeWs []) (normalizeWs (lit "  ")) = true
  /\ normalizeWs (slice [] 0 0) = normalizeWs (lit "  ")
  /\ ~ exists i j, findInContent [] (lit "  ") = Some (slice [] i j).
Proof.
  split; [by vm_compute|]. split; [by vm_compute|]. split; [by vm_compute|].
  intros (i & j & Hfound). vm_compute in Hfound. discriminate Hfound.
Qed.

(* ---------- the per-fix loop ---------- *)

Lemma readFileSync_state (p : string) (s : Proc) :
  (readFileSync p s).1 = logCall (CallRead p) s.
Proof.
  unfold readFileSync. destruct (disk s !! p) as [f|]; [destruct (readable f)|]; done.
Qed.

Lemma readFileSync_Returned (p : string) (s s' : Proc) (original : str) :
  readFileSync p s = (s', Returned original) ->
  s' = logCall (CallRead p) s
  /\ exists f, disk s !! p = Some f /\ readable f = true /\ content f = original.
Proof.
  unfold readFileSync. destruct (disk s !! p) as [f|]; [|done].
  destruct (readable f) eqn:Hr; [|done].
  intros [= <- <-]. eauto.
Qed.

Lemma writeFileSync_calls (p : string) (data : str) (s : Proc) :
  calls (writeFileSync p data s).1 = calls s ++ [CallWrite p data].
Proof.
  unfold writeFileSync. destruct (disk s !! p) as [f|]; [destruct (writable f)|]; done.
Qed.

Lemma writeFileSync_other (p q : string) (data : str) (s : Proc) :
  q <> p -> disk (writeFileSync p data s).1 !! q = disk s !! q.
Proof.
  intros Hq. unfold writeFileSync.
  destruct (disk s !! p) as [f|]; [destruct (writable f)|]; simpl;
    by rewrite ?lookup_insert_ne.
Qed.

Lemma writeFileSync_asked (p : string) (data : str) (s : Proc) :
  asked (writeFileSync p data s).1 = asked s.
Proof.
  unfold writeFileSync. destruct (disk s !! p) as [f|]; [destruct (writable f)|]; done.
Qed.

(** One step of the loop over [sourceFiles], spelled out. *)
Lemma patchFix_cons (w : World) (dryRun : bool) (fx : ApprovedFix)
                    (p : string) (rest : list string) (s : Proc) :
  patchFix w dryRun fx (p :: rest) s =
  match readFileSync p s with
  | (s1, Returned original) =>
      match findInContent original (currentCode fx) with
      | Some (c :: t) =>
          if dryRun then (s1, Returned (mkResult fx p false (Some "dry-run")))
          else
            let s2 := mkProc (disk s1) (S (asked s1)) (calls s1) in
            if approves (operator w (asked s1))
            then match writeFileSync p (replace original (c :: t) (suggestedFix fx)) s2 with
                 | (s3, Returned _) => (s3, Returned (mkResult fx p true None))
                 | (s3, Threw msg) => (s3, Threw msg)
                 | (s3, Exited code) => (s3, Exited code)
                 end
            else (s2, Returned (mkResult fx p false (Some "skipped by user")))
      | _ => patchFix w dryRun fx rest s1
      end
  | (s1, Threw msg) => (s1, Threw msg)
  | (s1, Exited code) => (s1, Exited code)
  end.
Proof.
  cbn [patchFix]. unfold bind at 1.
  destruct (readFileSync p s) as [s1 [original|msg|code]]; [|done|done].
  destruct (findInContent original (currentCode fx)) as [[|c t]|]; [done| |done].
  destruct dryRun; [done|].
  unfold bind, askYesNo, ret. simpl.
  by destruct (approves (operator w (asked s1))).
Qed.

Lemma canRead_true (d : gmap string FileNode) (q : string) :
  canRead d q = true <-> exists f, d !! q = Some f /\ readable f = true.
Proof.
  unfold canRead. destruct (d !! q) as [f|].
  - split; [eauto|]. by intros (f' & [= <-] & Hr).
  - split; [done|]. by intros (f' & ? & _).
Qed.

(** A file the loop cannot read ends it with the exception of the read. *)
Lemma patchFix_unreadable (w : World) (dryRun : bool) (fx : ApprovedFix)
                          (p : string) (rest : list string) (s : Proc) :
  canRead (disk s) p = false ->
  exists msg, patchFix w dryRun fx (p :: rest) s = (logCall (CallRead p) s, Threw msg).
Proof.
  intros Hno. rewrite patchFix_cons. unfold readFileSync.
  unfold canRead in Hno.
  destruct (disk s !! p) as [f|]; [rewrite Hno|]; eauto.
Qed.

(** A file the loop reads without finding a match is passed over: the
    loop goes on with the rest of the enumeration. *)
Lemma patchFix_skip (w : World) (dryRun : bool) (fx : ApprovedFix)
                    (q : string) (rest : list string) (s : Proc) :
  canRead (disk s) q = true -> hasMatch (disk s) fx q = false ->
  patchFix w dryRun fx (q :: rest) s
  = patchFix w dryRun fx rest (logCall (CallRead q) s).
Proof.
  intros (g & Hg & Hr)%canRead_true Hno.
  rewrite patchFix_cons. unfold readFileSync. rewrite Hg, Hr.
  unfold hasMatch in Hno. rewrite Hg in Hno.
  by destruct (findInContent (content g) (currentCode fx)) as [[|c t]|].
Qed.

(** What the loop does on reaching a readable file that holds a match:
    it reads that file, writes it at most once (in live mode, on
    approval), touches no other path and reads nothing after it. *)
Lemma patchFix_stop (w : World) (dryRun : bool) (fx : ApprovedFix)
                    (p : string) (later : list string) (s : Proc) :
  canRead (disk s) p = true -> hasMatch (disk s) fx p = true ->
  exists writes,
    calls (patchFix w dryRun fx (p :: later) s).1 = calls s ++ CallRead p :: writes
    /\ ((writes = [] /\ disk (patchFix w dryRun fx (p :: later) s).1 = disk s)
        \/ (exists data, dryRun = false /\ approves (operator w (asked s)) = true
                         /\ writes = [CallWrite p data]))
    /\ forall q, q <> p ->
         disk (patchFix w dryRun fx (p :: later) s).1 !! q = disk s !! q.
Proof.
  intros (f & Hf & Hr)%canRead_true Hyes.
  rewrite patchFix_cons. unfold readFileSync. rewrite Hf, Hr.
  unfold hasMatch in Hyes. rewrite Hf in Hyes.
  destruct (findInContent (content f) (currentCode fx)) as [[|c t]|]; [done| |done].
  destruct dryRun; [exists []; simpl; eauto|].
  simpl. destruct (approves (operator w (asked s))) eqn:Hanswer;
    [|exists []; simpl; eauto].
  set (data := replace (content f) (c :: t) (suggestedFix fx)).
  set (s2 := mkProc _ _ _).
  pose proof (writeFileSync_calls p data s2) as Hc.
  pose proof (fun q Hq => writeFileSync_other p q data s2 Hq) as Hd.
  exists [CallWrite p data].
  destruct (writeFileSync p data s2) as [s3 [[]|msg|code]]; simpl in *;
    (split; [by rewrite Hc, <- app_assoc|split; [right; eauto|exact Hd]]).
Qed.

(** The whole trace of the loop for one fix: it stops at the first file
    that holds a match or cannot be read, or at the end of the
    enumeration. *)
Lemma patchFix_trace (w : World) (dryRun : bool) (fx : ApprovedFix)
                     (files : list string) (s : Proc) :
  (files = []
   /\ calls (patchFix w dryRun fx files s).1 = calls s
   /\ disk (patchFix w dryRun fx files s).1 = disk s)
  \/ (exists before p later writes,
        files = before ++ p :: later
        /\ (forall q, q ∈ before ->
              canRead (disk s) q = true /\ hasMatch (disk s) fx q = false)
        /\ (hasMatch (disk s) fx p = true \/ canRead (disk s) p = false \/ later = [])
        /\ calls (patchFix w dryRun fx files s).1
           = calls s ++ (CallRead <$> before ++ [p]) ++ writes
        /\ ((writes = [] /\ disk (patchFix w dryRun fx files s).1 = disk s)
            \/ (exists data, writes = [CallWrite p data]
                  /\ dryRun = false
                  /\ canRead (disk s) p = true /\ hasMatch (disk s) fx p = true
                  /\ approves (operator w (asked s)) = true))
        /\ forall q, q <> p ->
             disk (patchFix w dryRun fx files s).1 !! q = disk s !! q).
Proof.
  revert s. induction files as [|p rest IH]; intros s; [by left|]. right.
  destruct (canRead (disk s) p) eqn:Hread.
  - destruct (hasMatch (disk s) fx p) eqn:Hmatch.
    + destruct (patchFix_stop w dryRun fx p rest s Hread Hmatch)
        as (writes & Hc & Hw & Hd).
      exists [], p, rest, writes.
      split; [done|]. split; [by intros q ?%elem_of_nil|]. split; [by left|].
      split; [exact Hc|]. split; [|exact Hd].
      destruct Hw as [Hw|(data & ? & ? & ?)]; [by left|right]. by exists data.
    + rewrite (patchFix_skip w dryRun fx p rest s Hread Hmatch).
      destruct (IH (logCall (CallRead p) s))
        as [(-> & Hc & Hd)
           |(before & p' & later & writes & -> & Hbefore & Hstop & Hc & Hw & Hd)].
      * exists [], p, [], [].
        split; [done|]. split; [by intros q ?%elem_of_nil|].
        split; [by right; right|]. split; [by rewrite Hc|].
        split; [by left|]. intros q _. by rewrite Hd.
      * exists (p :: before), p', later, writes.
        split; [done|]. split.
        { intros q [->|Hq]%elem_of_cons; [done|by apply Hbefore]. }
        split; [exact Hstop|]. split; [|split; [exact Hw|exact Hd]].
        rewrite Hc. simpl. by rewrite <- app_assoc.
  - destruct (patchFix_unreadable w dryRun fx p rest s Hread) as [msg ->].
    exists [], p, rest, [].
    split; [done|]. split; [by intros q ?%elem_of_nil|].
    split; [by right; left|]. split; [done|]. split; [by left|done].
Qed.

(** C5: for one approved fix the loop over the source files writes at
    most one file, whatever the files hold.  It reads the enumeration up
    to the first file [p] that holds a match or cannot be read (or to
    the end) and no file after it; every file before [p] was read and
    holds no match; the only write it may issue is one write to [p],
    in live mode, on approval, when [p] holds a match; every other path
    keeps its content.  In particular the first file of the enumeration
    that holds a match ends the search on every path (dry run, declined,
    approved): the files before it and that file are read, it is written
    at most once, and no later file is read or written. *)
Theorem patchFix_first_match_only (w : World) (dryRun : bool) (fx : ApprovedFix)
                                  (files : list string) (s : Proc) :
  ((files = []
    /\ calls (patchFix w dryRun fx files s).1 = calls s
    /\ disk (patchFix w dryRun fx files s).1 = disk s)
   \/ (exists before p later writes,
         files = before ++ p :: later
         /\ (forall q, q ∈ before ->
               canRead (disk s) q = true /\ hasMatch (disk s) fx q = false)
         /\ (hasMatch (disk s) fx p = true \/ canRead (disk s) p = false \/ later = [])
         /\ calls (patchFix w dryRun fx files s).1
            = calls s ++ (CallRead <$> before ++ [p]) ++ writes
         /\ ((writes = [] /\ disk (patchFix w dryRun fx files s).1 = disk s)
             \/ (exists data, writes = [CallWrite p data]
                   /\ dryRun = false
                   /\ canRead (disk s) p = true /\ hasMatch (disk s) fx p = true
                   /\ approves (operator w (asked s)) = true))
         /\ forall q, q <> p ->
              disk (patchFix w dryRun fx files s).1 !! q = disk s !! q))
  /\ (forall before p later,
        files = before ++ p :: later ->
        (forall q, q ∈ before ->
           canRead (disk s) q = true /\ hasMatch (disk s) fx q = false) ->
        canRead (disk s) p = true ->
        hasMatch (disk s) fx p = true ->
        exists writes,
          calls (patchFix w dryRun fx files s).1
          = calls s ++ (CallRead <$> before ++ [p]) ++ writes
          /\ ((writes = [] /\ disk (patchFix w dryRun fx files s).1 = disk s)
              \/ (exists data, dryRun = false
                               /\ approves (operator w (asked s)) = true
                               /\ writes = [CallWrite p data]))
          /\ forall q, q <> p ->
               disk (patchFix w dryRun fx files s).1 !! q = disk s !! q).
Proof.
  split; [apply patchFix_trace|].
  intros before p later -> Hbefore Hread Hyes.
  revert s Hbefore Hread Hyes.
  induction before as [|q before IH]; intros s Hbefore Hread Hyes.
  - destruct (patchFix_stop w dryRun fx p later s Hread Hyes)
      as (writes & Hc & Hw & Hd).
    exists writes. split; [exact Hc|split; [exact Hw|exact Hd]].
  - destruct (Hbefore q) as [Hq Hno]; [by left|].
    change ((q :: before) ++ p :: later) with (q :: (before ++ p :: later)).
    rewrite (patchFix_skip w dryRun fx q _ s Hq Hno).
    destruct (IH (logCall (CallRead q) s)) as (writes & Hc & Hw & Hd);
      [intros q' Hq'; apply Hbefore; by right|done|done|].
    exists writes. split; [|split; [exact Hw|exact Hd]].
    rewrite Hc. simpl. by rewrite <- app_assoc.
Qed.

Lemma patchFix_first_match_only_witness :
  exists writes,
    calls (patchFix Scenario.twinWorld false Scenario.firstFix ["a.html"; "b.html"]
             (Scenario.start Scenario.twinDisk)).1
    = calls (Scenario.start Scenario.twinDisk)
        ++ (CallRead <$> [] ++ ["a.html"]) ++ writes
    /\ ((writes = []
         /\ disk (patchFix Scenario.twinWorld false Scenario.firstFix
                    ["a.html"; "b.html"] (Scenario.start Scenario.twinDisk)).1
            = disk (Scenario.start Scenario.twinDisk))
        \/ (exists data, false = false
               /\ approves (operator Scenario.twinWorld
                              (asked (Scenario.start Scenario.twinDisk))) = true
               /\ writes = [CallWrite "a.html" data]))
    /\ forall q, q <> "a.html" ->
         disk (patchFix Scenario.twinWorld false Scenario.firstFix
                 ["a.html"; "b.html"] (Scenario.start Scenario.twinDisk)).1 !! q
         = disk (Scenario.start Scenario.twinDisk) !! q.
Proof.
  apply (proj2 (patchFix_first_match_only Scenario.twinWorld false Scenario.firstFix
                  ["a.html"; "b.html"] (Scenario.start Scenario.twinDisk))
           [] "a.html" ["b.html"]).
  - reflexivity.
  - intros q Hq. by apply elem_of_nil in Hq.
  - vm_compute. reflexivity.
  - vm_compute. reflexivity.
Defined.

(** Two files hold the same snippet: only the first one enumerated is
    rewritten. *)
Example twin_files_first_wins :
  let out := main Scenario.twinWorld ["report.json"; "site"]
                  (Scenario.start Scenario.twinDisk) in
  out.2 = 0%Z
  /\ calls out.1 = [CallRead "a.html"; CallWrite "a.html" (lit "<em>a</em>")]
  /\ content <$> disk out.1 !! "a.html" = Some (lit "<em>a</em>")
  /\ disk out.1 !! "b.html" = Scenario.twinDisk !! "b.html".
Proof. by vm_compute. Qed.

(* ---------- dry run ---------- *)

Lemma writesOf_app (cs cs' : list FsCall) :
  writesOf (cs ++ cs') = writesOf cs ++ writesOf cs'.
Proof. unfold writesOf. apply omap_app. Qed.

Lemma writesOf_reads (ps : list string) : writesOf (CallRead <$> ps) = [].
Proof. induction ps as [|p ps IH]; [done|]. simpl. exact IH. Qed.


Lemma applyFixes_cons (w : World) (dryRun : bool) (fx : ApprovedFix)
                      (rest : list ApprovedFix) (files : list string) (s : Proc) :
  applyFixes w dryRun (fx :: rest) files s =
  match patchFix w dryRun fx files s with
  | (s1, Returned r) =>
      match applyFixes w dryRun rest files s1 with
      | (s2, Returned rs) => (s2, Returned (r :: rs))
      | (s2, Threw msg) => (s2, Threw msg)
      | (s2, Exited code) => (s2, Exited code)
      end
  | (s1, Threw msg) => (s1, Threw msg)
  | (s1, Exited code) => (s1, Exited code)
  end.
Proof.
  cbn [applyFixes]. unfold bind at 1.
  destruct (patchFix w dryRun fx files s) as [s1 [r|msg|code]]; [|done|done].
  unfold bind, ret.
  by destruct (applyFixes w dryRun rest files s1) as [s2 [rs|msg|code]].
Qed.




Lemma main_run (w : World) (argv : list string) (rp sd : string)
               (more : list string) (s : Proc) :
  argsOf argv = rp :: sd :: more ->
  main w argv s =
  match runPatchAgent w (dryRunFlag argv) rp sd s with
  | (s', Returned _) => (s', 0%Z)
  | (s', Threw _) => (s', 1%Z)
  | (s', Exited code) => (s', code)
  end.
Proof. intros Hargs. unfold main. by rewrite Hargs. Qed.



(* ---------- exit codes ---------- *)

(** C7 (amended): with a report path and a source directory given, the
    patch CLI exits with code 1 when the report file is missing or cannot
    be read as JSON, and with code 0 when the report has no
    [approvedFixes] list (or an empty one) and on every run that
    completes; in the first three cases nothing has been touched. *)
Theorem patch_exit_codes (w : World) (argv : list string) (rp sd : string)
                         (more : list string) (s : Proc) :
  argsOf argv = rp :: sd :: more ->
  (reportAt w rp = ReportMissing -> main w argv s = (s, 1%Z))
  /\ (forall err, reportAt w rp = ReportUnreadable err -> main w argv s = (s, 1%Z))
  /\ (forall fixes, reportAt w rp = ReportJson (JsonObject fixes) ->
                    default [] fixes = [] -> main w argv s = (s, 0%Z))
  /\ (forall s' results,
        runPatchAgent w (dryRunFlag argv) rp sd s = (s', Returned results) ->
        main w argv s = (s', 0%Z)).
Proof.
  intros Hargs. rewrite (main_run _ _ _ _ _ _ Hargs).
  repeat split.
  - intros Hr. unfold runPatchAgent. by rewrite Hr.
  - intros err Hr. unfold runPatchAgent. by rewrite Hr.
  - intros fixes Hr Hnone. unfold runPatchAgent. by rewrite Hr, Hnone.
  - intros s' results Hrun. by rewrite Hrun.
Qed.

Lemma patch_exit_codes_witness :
  (reportAt Scenario.bareWorld "report.json" = ReportMissing ->
   main Scenario.bareWorld ["report.json"; "site"; "--dry-run"] (Scenario.start ∅)
   = (Scenario.start ∅, 1%Z))
  /\ (forall err, reportAt Scenario.bareWorld "report.json" = ReportUnreadable err ->
        main Scenario.bareWorld ["report.json"; "site"; "--dry-run"] (Scenario.start ∅)
        = (Scenario.start ∅, 1%Z))
  /\ (forall fixes, reportAt Scenario.bareWorld "report.json" = ReportJson (JsonObject fixes) ->
        default [] fixes = [] ->
        main Scenario.bareWorld ["report.json"; "site"; "--dry-run"] (Scenario.start ∅)
        = (Scenario.start ∅, 0%Z))
  /\ (forall s' results,
        runPatchAgent Scenario.bareWorld
          (dryRunFlag ["report.json"; "site"; "--dry-run"]) "report.json" "site"
          (Scenario.start ∅) = (s', Returned results) ->
        main Scenario.bareWorld ["report.json"; "site"; "--dry-run"] (Scenario.start ∅)
        = (s', 0%Z)).
Proof.
  apply (patch_exit_codes Scenario.bareWorld ["report.json"; "site"; "--dry-run"]
           "report.json" "site" []).
  reflexivity.
Defined.

(** C7, counterexample: a report that parses but has no [approvedFixes]
    list ends the process with code 0, not 1. *)
Lemma patch_exit_codes_counterexample :
  reportAt Scenario.bareWorld "report.json" = ReportJson (JsonObject None)
  /\ (main Scenario.bareWorld ["report.json"; "site"] (Scenario.start ∅)).2 <> 1%Z.
Proof. split; [reflexivity|]. vm_compute. discriminate. Qed.

(* ---------- failures of the file system ---------- *)

Lemma patchFix_read_failure (w : World) (dryRun : bool) (fx : ApprovedFix)
                            (p : string) (rest : list string) (s : Proc) (f : FileNode) :
  disk s !! p = Some f -> readable f = false ->
  patchFix w dryRun fx (p :: rest) s
  = (logCall (CallRead p) s, Threw "EACCES: permission denied").
Proof.
  intros Hf Hr. rewrite patchFix_cons. unfold readFileSync. by rewrite Hf, Hr.
Qed.

Lemma patchFix_write_failure (w : World) (fx : ApprovedFix) (p : string)
                             (rest : list string) (s : Proc) (f : FileNode)
                             (found : str) :
  disk s !! p = Some f -> readable f = true -> writable f = false ->
  findInContent (content f) (currentCode fx) = Some found -> found <> [] ->
  approves (operator w (asked s)) = true ->
  exists s', patchFix w false fx (p :: rest) s = (s', Threw "EACCES: permission denied")
             /\ disk s' = disk s.
Proof.
  intros Hf Hr Hw Hfound Hne Hyes.
  rewrite patchFix_cons. unfold readFileSync. rewrite Hf, Hr, Hfound.
  destruct found as [|c t]; [done|]. simpl. rewrite Hyes.
  unfold writeFileSync. simpl. rewrite Hf, Hw. eauto.
Qed.

Lemma applyFixes_app_Threw (w : World) (dryRun : bool) (before : list ApprovedFix)
                           (fx : ApprovedFix) (rest : list ApprovedFix)
                           (files : list string) (s s1 s2 : Proc)
                           (rs : list PatchResult) (msg : string) :
  applyFixes w dryRun before files s = (s1, Returned rs) ->
  patchFix w dryRun fx files s1 = (s2, Threw msg) ->
  applyFixes w dryRun (before ++ fx :: rest) files s = (s2, Threw msg).
Proof.
  revert s rs. induction before as [|b before IH]; intros s rs Hbefore Hfx.
  - injection Hbefore as <- <-. simpl app. by rewrite applyFixes_cons, Hfx.
  - simpl app. rewrite applyFixes_cons. rewrite applyFixes_cons in Hbefore.
    destruct (patchFix w dryRun b files s) as [s0 [r|m|c]]; [|done|done].
    destruct (applyFixes w dryRun before files s0) as [s0' [rs0|m|c]] eqn:E;
      [|done|done].
    injection Hbefore as <- <-. by rewrite (IH _ _ E Hfx).
Qed.

(** C8 (amended): when the patch attempt of one approved fix throws (a
    file cannot be read or written), after earlier fixes completed, the
    whole run throws at that point: the remaining fixes are not
    processed, no results are returned, and the CLI exits with code 1 in
    the state reached at the failure. *)
Theorem io_failure_aborts_run (w : World) (argv : list string) (rp sd : string)
                              (more : list string)
                              (before : list ApprovedFix) (fx : ApprovedFix)
                              (rest : list ApprovedFix)
                              (s s1 s2 : Proc) (rs : list PatchResult) (msg : string) :
  argsOf argv = rp :: sd :: more ->
  reportAt w rp = ReportJson (JsonObject (Some (before ++ fx :: rest))) ->
  applyFixes w (dryRunFlag argv) before (walkDir w sd) s = (s1, Returned rs) ->
  patchFix w (dryRunFlag argv) fx (walkDir w sd) s1 = (s2, Threw msg) ->
  runPatchAgent w (dryRunFlag argv) rp sd s = (s2, Threw msg)
  /\ main w argv s = (s2, 1%Z).
Proof.
  intros Hargs Hreport Hbefore Hfx.
  assert (runPatchAgent w (dryRunFlag argv) rp sd s = (s2, Threw msg)) as Hrun.
  { unfold runPatchAgent. rewrite Hreport. simpl.
    destruct (before ++ fx :: rest) as [|f0 fs] eqn:Hfixes; [by destruct before|].
    destruct (walkDir w sd) as [|p files] eqn:Hfiles; [done|].
    rewrite <- Hfixes. by eapply applyFixes_app_Threw. }
  split; [done|]. by rewrite (main_run _ _ _ _ _ _ Hargs), Hrun.
Qed.

Lemma io_failure_aborts_run_witness :
  exists s2 msg,
    runPatchAgent Scenario.lockedWorld false "report.json" "site"
      (Scenario.start Scenario.lockedDisk) = (s2, Threw msg)
    /\ main Scenario.lockedWorld ["report.json"; "site"]
         (Scenario.start Scenario.lockedDisk) = (s2, 1%Z).
Proof.
  eexists _, _.
  apply (io_failure_aborts_run Scenario.lockedWorld ["report.json"; "site"]
           "report.json" "site" [] [] Scenario.firstFix [Scenario.secondFix]
           (Scenario.start Scenario.lockedDisk) (Scenario.start Scenario.lockedDisk)
           _ [] _).
  - reflexivity.
  - reflexivity.
  - reflexivity.
  - vm_compute. reflexivity.
Defined.

(** C8, counterexample: the write for the first fix fails; the second
    fix, which has a match in [b.html], is never attempted: that file is
    not even read and no result is produced. *)
Lemma io_failure_aborts_run_counterexample :
  exists s',
    applyFixes Scenario.lockedWorld false [Scenario.firstFix; Scenario.secondFix]
      ["a.html"; "b.html"] (Scenario.start Scenario.lockedDisk)
    = (s', Threw "EACCES: permission denied")
    /\ hasMatch Scenario.lockedDisk Scenario.secondFix "b.html" = true
    /\ (CallRead "b.html" ∉ calls s')
    /\ disk s' = Scenario.lockedDisk.
Proof.
  eexists. split; [vm_compute; reflexivity|].
  split; [by vm_compute|]. split; [|reflexivity].
  simpl. intros Hin. apply elem_of_cons in Hin as [Hin|Hin]; [discriminate Hin|].
  apply elem_of_cons in Hin as [Hin|Hin]; [discriminate Hin|].
  by apply elem_of_nil in Hin.
Qed.

(* ---------- the confirmation prompt ---------- *)

Lemma trimStart_prefix_ws (s : str) : exists L, s = L ++ trimStart s /\ allWs L.
Proof.
  induction s as [|c s (L & HL & HW)]; simpl;
    [exists []; split; [done|constructor]|].
  destruct (isWs c) eqn:Hc; [|exists []; split; [done|constructor]].
  exists (c :: L). split; [simpl; by f_equal|by constructor].
Qed.

Lemma trimStart_ws_app (L t : str) : allWs L -> trimStart (L ++ t) = trimStart t.
Proof. induction 1 as [|c L Hc _ IH]; simpl; [done|]. by rewrite Hc. Qed.

Lemma trim_decomp_ws (s : str) :
  exists L R, s = L ++ trim s ++ R /\ allWs L /\ allWs R.
Proof.
  unfold trim, trimEnd.
  destruct (trimStart_prefix_ws s) as (L & HL & HWL).
  destruct (trimStart_prefix_ws (rev (trimStart s))) as (R & HR & HWR).
  exists L, (rev R). split; [|split; [done|by apply Forall_rev]].
  rewrite <- rev_app_distr, <- HR, rev_involutive. exact HL.
Qed.

Lemma trim_single (L R : str) (c : N) :
  allWs L -> allWs R -> isWs c = false -> trim (L ++ c :: R) = [c].
Proof.
  intros HL HR Hc. unfold trim, trimEnd.
  rewrite trimStart_ws_app, trimStart_id by done.
  change (rev (c :: R)) with (rev R ++ [c]).
  rewrite trimStart_ws_app by (by apply Forall_rev).
  by rewrite trimStart_id.
Qed.

Lemma lowerUnit_n (c : N) : lowerUnit c = 110%N <-> c = 110%N \/ c = 78%N.
Proof.
  unfold lowerUnit.
  destruct (N.leb_spec 65 c), (N.leb_spec c 90); simpl;
    try destruct (N.eqb_spec c 8490); lia.
Qed.

(** The typed lines that decline: an [n] or [N] with only whitespace
    around it. *)
Lemma approves_false (answer : str) :
  approves answer = false
  <-> exists L c R, answer = L ++ c :: R /\ allWs L /\ allWs R
                    /\ (c = 110%N \/ c = 78%N).
Proof.
  unfold approves, strEq. rewrite negb_false_iff, bool_decide_eq_true.
  change (lit "n") with [110%N]. split.
  - intros Hlow.
    destruct (trim_decomp_ws answer) as (L & R & Hans & HL & HR).
    destruct (trim answer) as [|c [|c' t]]; try done.
    injection Hlow as Hc%lowerUnit_n. exists L, c, R. by rewrite Hans at 1.
  - intros (L & c & R & -> & HL & HR & Hc).
    rewrite trim_single; [|done|done|by destruct Hc as [->| ->]].
    simpl. f_equal. by apply lowerUnit_n.
Qed.

Lemma patchFix_live_write (w : World) (fx : ApprovedFix) (p : string)
                          (rest : list string) (s : Proc) (f : FileNode)
                          (found : str) :
  disk s !! p = Some f -> readable f = true -> writable f = true ->
  findInContent (content f) (currentCode fx) = Some found -> found <> [] ->
  approves (operator w (asked s)) = true ->
  patchFix w false fx (p :: rest) s
  = (mkProc (<[p := mkFile (toWellFormed (replace (content f) found (suggestedFix fx)))
                           true true]> (disk s))
            (S (asked s))
            (calls s ++ [CallRead p;
                         CallWrite p (replace (content f) found (suggestedFix fx))]),
     Returned (mkResult fx p true None)).
Proof.
  intros Hf Hr Hw Hfound Hne Hyes.
  rewrite patchFix_cons. unfold readFileSync. rewrite Hf, Hr, Hfound.
  destruct found as [|c t]; [done|]. simpl. rewrite Hyes.
  unfold writeFileSync. simpl. rewrite Hf, Hw, Hr. simpl.
  by rewrite <- app_assoc.
Qed.

Lemma patchFix_live_decline (w : World) (fx : ApprovedFix) (p : string)
                            (rest : list string) (s : Proc) (f : FileNode)
                            (found : str) :
  disk s !! p = Some f -> readable f = true ->
  findInContent (content f) (currentCode fx) = Some found -> found <> [] ->
  approves (operator w (asked s)) = false ->
  patchFix w false fx (p :: rest) s
  = (mkProc (disk s) (S (asked s)) (calls s ++ [CallRead p]),
     Returned (mkResult fx p false (Some "skipped by user"))).
Proof.
  intros Hf Hr Hfound Hne Hno.
  rewrite patchFix_cons. unfold readFileSync. rewrite Hf, Hr, Hfound.
  destruct found as [|c t]; [done|]. simpl. by rewrite Hno.
Qed.

(** C10: the prompt approves every typed line except those that, once
    trimmed and lowercased, are exactly ["n"] (an [n] or [N] surrounded
    by whitespace only); the empty line and ["no"] approve.  In live
    mode the answer decides the write: on a matching file an approving
    line makes the loop write the patched text to it (one write call,
    the result is applied), and a line that is ["n"] after trimming and
    lowercasing prevents the write (no write call, the disk is as it
    was, the result is "skipped by user"). *)
Theorem askYesNo_default_yes :
  (forall answer, approves answer = true <-> toLowerCase (trim answer) <> lit "n")
  /\ (forall answer,
        approves answer = false
        <-> exists L c R, answer = L ++ c :: R /\ allWs L /\ allWs R
                          /\ (c = 110%N \/ c = 78%N))
  /\ approves (lit "") = true
  /\ approves (lit "no") = true
  /\ (forall (w : World) fx p rest s f found,
        disk s !! p = Some f -> readable f = true -> writable f = true ->
        findInContent (content f) (currentCode fx) = Some found -> found <> [] ->
        toLowerCase (trim (operator w (asked s))) <> lit "n" ->
        (patchFix w false fx (p :: rest) s).2 = Returned (mkResult fx p true None)
        /\ calls (patchFix w false fx (p :: rest) s).1
           = calls s ++ [CallRead p;
                         CallWrite p (replace (content f) found (suggestedFix fx))]
        /\ content <$> disk (patchFix w false fx (p :: rest) s).1 !! p
           = Some (toWellFormed (replace (content f) found (suggestedFix fx))))
  /\ (forall (w : World) fx p rest s f found,
        disk s !! p = Some f -> readable f = true ->
        findInContent (content f) (currentCode fx) = Some found -> found <> [] ->
        toLowerCase (trim (operator w (asked s))) = lit "n" ->
        (patchFix w false fx (p :: rest) s).2
        = Returned (mkResult fx p false (Some "skipped by user"))
        /\ calls (patchFix w false fx (p :: rest) s).1 = calls s ++ [CallRead p]
        /\ disk (patchFix w false fx (p :: rest) s).1 = disk s).
Proof.
  assert (forall answer,
             approves answer = true <-> toLowerCase (trim answer) <> lit "n") as Hyes.
  { intros answer. unfold approves, strEq.
    by rewrite negb_true_iff, bool_decide_eq_false. }
  split; [done|]. split; [apply approves_false|].
  split; [reflexivity|]. split; [reflexivity|]. split.
  - intros w fx p rest s f found Hf Hr Hw Hfound Hne Hanswer.
    rewrite (patchFix_live_write w fx p rest s f found) by (done || by apply Hyes).
    split; [done|]. split; [done|]. simpl. by rewrite lookup_insert_eq.
  - intros w fx p rest s f found Hf Hr Hfound Hne Hanswer.
    rewrite (patchFix_live_decline w fx p rest s f found); [done..|].
    unfold approves, strEq. rewrite negb_false_iff. by apply bool_decide_eq_true.
Qed.

Lemma askYesNo_default_yes_witness :
  ((patchFix Scenario.lockedWorld false Scenario.secondFix ["b.html"]
      (Scenario.start Scenario.lockedDisk)).2
   = Returned (mkResult Scenario.secondFix "b.html" true None)
   /\ calls (patchFix Scenario.lockedWorld false Scenario.secondFix ["b.html"]
               (Scenario.start Scenario.lockedDisk)).1
      = calls (Scenario.start Scenario.lockedDisk)
          ++ [CallRead "b.html";
              CallWrite "b.html" (replace (lit "<i>b</i>") (lit "<i>b</i>")
                                          (suggestedFix Scenario.secondFix))]
   /\ content <$> disk (patchFix Scenario.lockedWorld false Scenario.secondFix ["b.html"]
                          (Scenario.start Scenario.lockedDisk)).1 !! "b.html"
      = Some (toWellFormed (replace (lit "<i>b</i>") (lit "<i>b</i>")
                                    (suggestedFix Scenario.secondFix))))
  /\ ((patchFix MixedRun.world false Scenario.secondFix ["b.html"]
         (mkProc MixedRun.pages 1 [])).2
      = Returned (mkResult Scenario.secondFix "b.html" false (Some "skipped by user"))
      /\ calls (patchFix MixedRun.world false Scenario.secondFix ["b.html"]
                  (mkProc MixedRun.pages 1 [])).1
         = calls (mkProc MixedRun.pages 1 []) ++ [CallRead "b.html"]
      /\ disk (patchFix MixedRun.world false Scenario.secondFix ["b.html"]
                 (mkProc MixedRun.pages 1 [])).1
         = disk (mkProc MixedRun.pages 1 [])).
Proof.
  split.
  - apply (proj1 (proj2 (proj2 (proj2 (proj2 askYesNo_default_yes))))
             Scenario.lockedWorld Scenario.secondFix "b.html" []
             (Scenario.start Scenario.lockedDisk)
             (mkFile (lit "<i>b</i>") true true) (lit "<i>b</i>")).
    + reflexivity.
    + reflexivity.
    + reflexivity.
    + vm_compute. reflexivity.
    + discriminate.
    + discriminate.
  - apply (proj2 (proj2 (proj2 (proj2 (proj2 askYesNo_default_yes))))
             MixedRun.world Scenario.secondFix "b.html" []
             (mkProc MixedRun.pages 1 [])
             (mkFile (lit "<i>b</i>") true true) (lit "<i>b</i>")).
    + reflexivity.
    + reflexivity.
    + vm_compute. reflexivity.
    + discriminate.
    + vm_compute. reflexivity.
Defined.

(* ---------- the replacement text ---------- *)

(** A replacement without [$] is inserted as it is. *)
Lemma getSubstitution_plain (matched preceding following template : str) :
  Forall (fun c => c <> 36%N) template ->
  getSubstitution matched preceding following template = template.
Proof.
  induction 1 as [|c t Hc _ IH]; simpl; [done|].
  destruct (N.eqb_spec c 36); [done|]. by rewrite IH.
Qed.

Lemma replace_plain (s pattern replacement : str) (pos : nat) :
  Forall (fun c => c <> 36%N) replacement ->
  indexOf s pattern = Some pos ->
  replace s pattern replacement
  = take pos s ++ replacement ++ drop (pos + length pattern) s.
Proof.
  intros Hplain Hpos. unfold replace. rewrite Hpos.
  by rewrite getSubstitution_plain.
Qed.

(** C4: a live, confirmed run on a page holding [<b>5</b>] with the
    suggested fix [<b>$&nbsp;5</b>]: the file is written once, but the
    text put in place of the matched span is not the suggested fix: the
    [$&] in it has been expanded to the matched text. *)
Theorem patch_dollar_pattern_expanded :
  let out := main Scenario.priceWorld ["report.json"; "site"]
                  (Scenario.start Scenario.priceDisk) in
  out.2 = 0%Z
  /\ writesOf (calls out.1) = ["index.html"]
  /\ content <$> disk out.1 !! "index.html" = Some (lit "<p><b><b>5</b>nbsp;5</b></p>")
  /\ lit "<p><b><b>5</b>nbsp;5</b></p>"
     <> lit "<p>" ++ suggestedFix Scenario.priceFix ++ lit "</p>".
Proof.
  split; [by vm_compute|]. split; [by vm_compute|].
  split; [by vm_compute|]. discriminate.
Qed.

(* ---------- Fix Validator ---------- *)

Import Validator.

Lemma setMarkup_same (d : LiveDocument) (el : nat) (code : str) :
  markupOf (setMarkup d el code) !! el = Some code.
Proof. simpl. apply lookup_insert_eq. Qed.

Lemma setMarkup_other (d : LiveDocument) (el el' : nat) (code : str) :
  el' <> el -> markupOf (setMarkup d el code) !! el' = markupOf d !! el'.
Proof. intros Hne. simpl. by apply lookup_insert_ne. Qed.

(** C1: when the selector resolves, then after [validateFix] the
    resolved element's markup is [originalCode] on every path: the
    normal one, whatever the checks report (for every value of
    [passed]), and the ones on which injecting, checking or reverting
    throws; the selector index and every other element are as before,
    and the promise is fulfilled. *)
Theorem validateFix_restores (b : Browser) (d : LiveDocument) (selector : string)
                             (el : nat) (proposedCode originalCode : str) :
  index d !! selector = Some el ->
  markupOf (validateFix b d selector proposedCode originalCode).1 !! el
  = Some originalCode
  /\ index (validateFix b d selector proposedCode originalCode).1 = index d
  /\ (forall el', el' <> el ->
        markupOf (validateFix b d selector proposedCode originalCode).1 !! el'
        = markupOf d !! el')
  /\ exists result,
       (validateFix b d selector proposedCode originalCode).2 = Fulfilled result.
Proof.
  intros Hel. unfold validateFix, bestEffortRevert. rewrite Hel.
  destruct (fault b INJECTING) as [e1|];
    [|destruct (fault b CHECKING) as [e2|];
      [|destruct (fault b REVERTING) as [e3|]]];
    cbn [fst snd].
  - split; [apply setMarkup_same|]. split; [done|].
    split; [|eauto]. intros el' Hne. by apply setMarkup_other.
  - split; [apply setMarkup_same|]. split; [done|].
    split; [|eauto]. intros el' Hne.
    rewrite setMarkup_other by done. by apply setMarkup_other.
  - split; [apply setMarkup_same|]. split; [done|].
    split; [|eauto]. intros el' Hne.
    rewrite setMarkup_other by done. by apply setMarkup_other.
  - split; [apply setMarkup_same|]. split; [done|].
    split; [|eauto]. intros el' Hne.
    rewrite setMarkup_other by done. by apply setMarkup_other.
Qed.

Lemma validateFix_restores_witness :
  markupOf (validateFix ValidatorScenario.closing ValidatorScenario.page "#buy"
              (lit "<a title='Buy'>buy</a>") (lit "<a>buy</a>")).1 !! 0
  = Some (lit "<a>buy</a>").
Proof.
  refine (proj1 (validateFix_restores ValidatorScenario.closing ValidatorScenario.page
                   "#buy" 0 (lit "<a title='Buy'>buy</a>") (lit "<a>buy</a>") _)).
  reflexivity.
Defined.

Lemma validateAll_unresolved (b : Browser) (d : LiveDocument)
                             (issues : list AccessibilityIssue) :
  (forall i, i ∈ issues -> index d !! element i = None) ->
  validateAll b d issues
  = (d, (fun i => mkValidated i manual (Some "element not found")) <$> issues).
Proof.
  induction issues as [|i issues IH]; intros Hnone; [done|].
  cbn [validateAll]. unfold validateFix at 1.
  rewrite (Hnone i) by (apply elem_of_cons; by left).
  rewrite IH; [done|]. intros j Hj. apply Hnone. apply elem_of_cons. by right.
Qed.

(** C9: for a selector that does not resolve, [validateFix] is
    fulfilled with [{method: "skipped", passed: false, reason: "element
    not found"}] and the document is unchanged; the audit records the
    issue as manual with that reason, and a whole validation pass over
    unresolvable issues leaves the document unchanged. *)
Theorem validateFix_unresolved (b : Browser) (d : LiveDocument) (selector : string)
                               (proposedCode originalCode : str) :
  index d !! selector = None ->
  validateFix b d selector proposedCode originalCode
  = (d, Fulfilled (mkValidation Skipped false (Some "element not found")))
  /\ (forall i,
        recordValidation i (validateFix b d selector proposedCode originalCode).2
        = mkValidated i manual (Some "element not found"))
  /\ (forall issues,
        (forall i, i ∈ issues -> index d !! element i = None) ->
        (validateAll b d issues).1 = d).
Proof.
  intros Hnone. unfold validateFix. rewrite Hnone.
  split; [done|]. split; [done|].
  intros issues Hall. by rewrite validateAll_unresolved.
Qed.

Lemma validateFix_unresolved_witness :
  validateFix ValidatorScenario.closing ValidatorScenario.page "#sell"
    (lit "<a title='Sell'>sell</a>") (lit "<a>sell</a>")
  = (ValidatorScenario.page,
     Fulfilled (mkValidation Skipped false (Some "element not found"))).
Proof.
  refine (proj1 (validateFix_unresolved ValidatorScenario.closing ValidatorScenario.page
                   "#sell" (lit "<a title='Sell'>sell</a>") (lit "<a>sell</a>") _)).
  reflexivity.
Defined.

(* ===================================================================== *)
(** * Further properties of the scripts *)
(* ===================================================================== *)

Import Patch.

(* ---------- file discovery ---------- *)

Import Discovery.

Scheme Entries_tree_ind := Induction for Entries Sort Prop
  with Node_tree_ind := Induction for Node Sort Prop.

Lemma fileAt_later (rest : Entries) (rel : list str) (name : str) (node : Node) :
  fileAt rest rel -> fileAt (Entry name node rest) rel.
Proof.
  intros [es n Hn|es n sub r Hn Hr].
  - apply fileAt_here. by apply hasEntry_later.
  - eapply fileAt_below; [by apply hasEntry_later|done].
Qed.

Lemma walkEntries_sound (entries : Entries) :
  forall dir p,
    p ∈ walkEntries dir entries ->
    exists rel name,
      p = dir ++ rel /\ fileAt entries rel
      /\ Forall (fun seg => seg ∉ SKIP_DIRS) rel
      /\ last rel = Some name /\ hasHtmlExtension name = true.
Proof.
  induction entries as [|name node IHnode rest IHrest| |sub IHsub]
    using Entries_tree_ind
    with (P0 := fun node =>
            match node with
            | File => True
            | Dir sub =>
                forall dir p,
                  p ∈ walkEntries dir sub ->
                  exists rel name,
                    p = dir ++ rel /\ fileAt sub rel
                    /\ Forall (fun seg => seg ∉ SKIP_DIRS) rel
                    /\ last rel = Some name /\ hasHtmlExtension name = true
            end); try done.
  - intros dir p Hp. by apply elem_of_nil in Hp.
  - intros dir p Hp. cbn [walkEntries] in Hp.
    apply elem_of_app in Hp as [Hp|Hp].
    + case_bool_decide as Hskip; [by apply elem_of_nil in Hp|].
      destruct node as [|sub].
      * destruct (hasHtmlExtension name) eqn:Hext; [|by apply elem_of_nil in Hp].
        apply list_elem_of_singleton in Hp as ->.
        exists [name], name. repeat split; try done.
        -- apply fileAt_here. constructor.
        -- by constructor.
      * destruct (IHnode _ _ Hp) as (rel & leaf & -> & Hat & Hok & Hlast & Hext).
        exists (name :: rel), leaf. repeat split; try done.
        -- by rewrite <- app_assoc.
        -- eapply fileAt_below; [constructor|done].
        -- by constructor.
        -- destruct rel; [done|]. done.
    + destruct (IHrest _ _ Hp) as (rel & leaf & -> & Hat & Hok & Hlast & Hext).
      exists rel, leaf. repeat split; try done. by apply fileAt_later.
Qed.

Lemma walkEntries_has_file (entries : Entries) (dir : list str) (name : str) :
  hasEntry entries name File ->
  name ∉ SKIP_DIRS -> hasHtmlExtension name = true ->
  dir ++ [name] ∈ walkEntries dir entries.
Proof.
  intros Hentry Hskip Hext.
  remember File as node eqn:Hnode.
  induction Hentry as [name node rest|name node name' node' rest _ IH];
    cbn [walkEntries]; apply elem_of_app.
  - left. subst node. rewrite bool_decide_eq_false_2, Hext by done.
    by apply list_elem_of_singleton.
  - right. by apply IH.
Qed.

Lemma walkEntries_has_dir (entries sub : Entries) (dir : list str) (name : str)
                          (p : list str) :
  hasEntry entries name (Dir sub) ->
  name ∉ SKIP_DIRS ->
  p ∈ walkEntries (dir ++ [name]) sub ->
  p ∈ walkEntries dir entries.
Proof.
  intros Hentry Hskip Hp.
  remember (Dir sub) as node eqn:Hnode.
  induction Hentry as [name node rest|name node name' node' rest _ IH];
    cbn [walkEntries]; apply elem_of_app.
  - left. subst node. by rewrite bool_decide_eq_false_2.
  - right. by apply IH.
Qed.

Lemma walkEntries_complete (entries : Entries) (rel : list str) :
  fileAt entries rel ->
  forall dir name,
    Forall (fun seg => seg ∉ SKIP_DIRS) rel ->
    last rel = Some name -> hasHtmlExtension name = true ->
    dir ++ rel ∈ walkEntries dir entries.
Proof.
  induction 1 as [entries leaf Hleaf|entries seg sub rel Hseg Hsub IH];
    intros dir name Hok Hlast Hext.
  - injection Hlast as ->. apply Forall_cons in Hok as [Hskip _].
    by apply walkEntries_has_file.
  - apply Forall_cons in Hok as [Hskip Hok].
    apply (walkEntries_has_dir _ sub _ seg); [done|done|].
    replace (dir ++ seg :: rel) with ((dir ++ [seg]) ++ rel)
      by (by rewrite <- app_assoc).
    apply (IH _ name); [done| |done].
    destruct rel; [inversion Hsub|done].
Qed.

(** X1: [walkDir] returns exactly the paths of the regular files below
    [dir] that carry an HTML extension and are reached without passing
    through an entry named in [SKIP_DIRS]. *)
Theorem walkDir_exactly_html_files (dir : list str) (entries : Entries) (p : list str) :
  (exists files, Discovery.walkDir dir (Some (Dir entries)) = Returned files /\ p ∈ files)
  <-> exists rel name,
        p = dir ++ rel /\ fileAt entries rel
        /\ Forall (fun seg => seg ∉ SKIP_DIRS) rel
        /\ last rel = Some name /\ hasHtmlExtension name = true.
Proof.
  split.
  - intros (files & [= <-] & Hp). by apply walkEntries_sound.
  - intros (rel & name & -> & Hat & Hok & Hlast & Hext).
    exists (walkEntries dir entries). split; [done|].
    by eapply walkEntries_complete.
Qed.

Lemma lastDot_None (s : str) : lastDot s = None <-> 46%N ∉ s.
Proof.
  induction s as [|c s IH]; simpl.
  - split; [intros _ Hin; by apply elem_of_nil in Hin|done].
  - destruct (lastDot s) as [i|].
    + split; [done|]. intros Hnot. exfalso.
      assert (46%N ∉ s) as Hs by (intros Hin; apply Hnot; by apply elem_of_cons; right).
      by apply IH in Hs.
    + destruct (N.eqb_spec c 46) as [->|Hc].
      * split; [done|]. intros Hnot. exfalso. apply Hnot. by apply elem_of_cons; left.
      * split; [|done]. intros _ [Heq|Hin]%elem_of_cons; [done|].
        by apply (proj1 IH).
Qed.

Lemma lastDot_Some (s : str) (i : nat) :
  lastDot s = Some i ->
  exists stem ext, s = stem ++ 46%N :: ext /\ length stem = i /\ (46%N ∉ ext).
Proof.
  revert i. induction s as [|c s IH]; intros i; simpl; [done|].
  destruct (lastDot s) as [j|] eqn:Hj.
  - intros [= <-]. destruct (IH j eq_refl) as (stem & ext & -> & Hlen & Hext).
    exists (c :: stem), ext. simpl. by rewrite Hlen.
  - destruct (N.eqb_spec c 46) as [->|Hc]; [|done].
    intros [= <-]. exists [], s. repeat split; try done. by apply lastDot_None.
Qed.

Lemma lastDot_app (stem ext : str) :
  46%N ∉ ext -> lastDot (stem ++ 46%N :: ext) = Some (length stem).
Proof.
  intros Hext. induction stem as [|c stem IH]; simpl.
  - apply lastDot_None in Hext. by rewrite Hext.
  - by rewrite IH.
Qed.

Lemma toLowerCase_in_HTML_EXTENSIONS (e : str) :
  toLowerCase e ∈ HTML_EXTENSIONS
  <-> exists ext, e = 46%N :: ext
                  /\ toLowerCase ext ∈ [lit "html"; lit "htm"; lit "xhtml"].
Proof.
  unfold HTML_EXTENSIONS. rewrite !elem_of_cons, !elem_of_nil.
  change (lit ".html") with (46%N :: lit "html").
  change (lit ".htm") with (46%N :: lit "htm").
  change (lit ".xhtml") with (46%N :: lit "xhtml").
  assert (forall c, lowerUnit c = 46%N -> c = 46%N) as Hdot.
  { intros c. unfold lowerUnit.
    destruct (N.leb_spec 65 c), (N.leb_spec c 90); simpl;
      try destruct (N.eqb_spec c 8490); lia. }
  split.
  - intros Hcases. destruct e as [|c ext].
    { destruct Hcases as [H|[H|[H|[]]]]; discriminate H. }
    simpl in Hcases.
    assert (lowerUnit c = 46%N) as Hc.
    { destruct Hcases as [H|[H|[H|[]]]]; by injection H. }
    apply Hdot in Hc as ->. exists ext. split; [done|].
    rewrite !elem_of_cons, !elem_of_nil.
    destruct Hcases as [H|[H|[H|[]]]]; injection H as H; auto.
  - intros (ext & -> & Hin). rewrite !elem_of_cons, !elem_of_nil in Hin.
    simpl. change (lowerUnit 46) with 46%N.
    destruct Hin as [H|[H|[H|[]]]]; rewrite H; auto.
Qed.

(** X2: a name counts as an HTML file exactly when it is a non-empty
    stem, a dot and a dot-free extension that is [html], [htm] or
    [xhtml] up to letter case; a name whose only dot is the leading one
    (such as [.html]) does not count. *)
Theorem hasHtmlExtension_iff (name : str) :
  hasHtmlExtension name = true
  <-> exists stem ext,
        name = stem ++ 46%N :: ext /\ stem <> [] /\ (46%N ∉ ext)
        /\ toLowerCase ext ∈ [lit "html"; lit "htm"; lit "xhtml"].
Proof.
  unfold hasHtmlExtension. rewrite bool_decide_eq_true.
  rewrite toLowerCase_in_HTML_EXTENSIONS. unfold extname. split.
  - intros (ext & Hext & Hlow).
    destruct (lastDot name) as [[|i]|] eqn:Hdot; [done| |done].
    destruct (strEq name (lit "..")); [done|].
    destruct (lastDot_Some _ _ Hdot) as (stem & ext' & -> & Hlen & Hnodot).
    rewrite <- Hlen, drop_app_length in Hext. injection Hext as ->.
    exists stem, ext. repeat split; try done. by destruct stem.
  - intros (stem & ext & -> & Hstem & Hnodot & Hlow).
    rewrite lastDot_app by done.
    destruct (length stem) as [|i] eqn:Hlen; [by destruct stem|].
    unfold strEq. case_bool_decide as Hdots.
    + exfalso. destruct stem as [|c [|c' stem]]; try done.
      * injection Hdots as -> ->.
        rewrite !elem_of_cons, elem_of_nil in Hlow.
        destruct Hlow as [H|[H|[H|[]]]]; discriminate H.
      * destruct stem; simpl in Hdots; [|destruct stem]; done.
    + exists ext. split; [|done]. by rewrite <- Hlen, drop_app_length.
Qed.

(* ---------- accounting of a patch run ---------- *)

Import Summary.

(** What one completed pass of the per-fix loop has done, by the kind of
    result it returns. *)
Lemma patchFix_Returned (w : World) (dryRun : bool) (fx : ApprovedFix)
                        (files : list string) (s s' : Proc) (r : PatchResult) :
  patchFix w dryRun fx files s = (s', Returned r) ->
  disk s' = disk s /\ writesOf (calls s') = writesOf (calls s)
  /\ ((r = mkResult fx "" false (Some "currentCode not found in any file")
       /\ asked s' = asked s)
      \/ (exists p, r = mkResult fx p false (Some "dry-run")
                    /\ dryRun = true /\ asked s' = asked s)
      \/ (exists p, r = mkResult fx p false (Some "skipped by user")
                    /\ dryRun = false /\ asked s' = S (asked s)))
  \/ (exists p, r = mkResult fx p true None /\ dryRun = false
                /\ asked s' = S (asked s)
                /\ writesOf (calls s') = writesOf (calls s) ++ [p]).
Proof.
  revert s. induction files as [|p rest IH]; intros s.
  { intros [= <- <-]. left. split; [done|split; [done|]]. by left. }
  rewrite patchFix_cons.
  destruct (readFileSync p s) as [s1 [original|msg|code]] eqn:Hread; [|done|done].
  apply readFileSync_Returned in Hread as (-> & _).
  assert (writesOf (calls (logCall (CallRead p) s)) = writesOf (calls s)) as Hlog.
  { simpl. rewrite writesOf_app. simpl. by rewrite app_nil_r. }
  assert (patchFix w dryRun fx rest (logCall (CallRead p) s) = (s', Returned r) ->
          disk s' = disk s /\ writesOf (calls s') = writesOf (calls s)
          /\ ((r = mkResult fx "" false (Some "currentCode not found in any file")
               /\ asked s' = asked s)
              \/ (exists p, r = mkResult fx p false (Some "dry-run")
                            /\ dryRun = true /\ asked s' = asked s)
              \/ (exists p, r = mkResult fx p false (Some "skipped by user")
                            /\ dryRun = false /\ asked s' = S (asked s)))
          \/ (exists p, r = mkResult fx p true None /\ dryRun = false
                        /\ asked s' = S (asked s)
                        /\ writesOf (calls s') = writesOf (calls s) ++ [p]))
    as Hcontinue.
  { intros Hrest. destruct (IH _ Hrest) as [(Hd & Hw & Hk)|(q & ? & ? & ? & Hw)].
    - left. split; [done|]. split; [by rewrite Hw|done].
    - right. exists q. by rewrite Hw, Hlog. }
  destruct (findInContent original (currentCode fx)) as [[|c t]|];
    [done| |done].
  destruct dryRun.
  { intros [= <- <-]. left. split; [done|split; [done|]]. right. left. eauto. }
  simpl. destruct (approves _).
  - set (s2 := mkProc _ _ _).
    pose proof (writeFileSync_calls p (replace original (c :: t) (suggestedFix fx)) s2)
      as Hc.
    pose proof (writeFileSync_asked p (replace original (c :: t) (suggestedFix fx)) s2)
      as Ha.
    destruct (writeFileSync p _ s2) as [s3 [[]|msg|code]]; [|done|done].
    intros [= <- <-]. right. exists p. simpl in *.
    split; [done|split; [done|split; [done|]]].
    rewrite Hc, writesOf_app. simpl. by rewrite writesOf_app, app_nil_r.
  - intros [= <- <-]. left. split; [done|split; [done|]]. right. right. eauto.
Qed.

Lemma applyFixes_nil (w : World) (dryRun : bool) (files : list string) (s : Proc) :
  applyFixes w dryRun [] files s = (s, Returned []).
Proof. done. Qed.

Lemma filter_cons_yes {A} (P : A -> Prop) `{forall x, Decision (P x)} (x : A) (l : list A) :
  P x -> filter P (x :: l) = x :: filter P l.
Proof. intros HP. by rewrite filter_cons, decide_True. Qed.

Lemma filter_cons_no {A} (P : A -> Prop) `{forall x, Decision (P x)} (x : A) (l : list A) :
  ~ P x -> filter P (x :: l) = filter P l.
Proof. intros HP. by rewrite filter_cons, decide_False. Qed.

(** The books of a completed run: what the results say against what the
    process did. *)
Lemma applyFixes_Returned (w : World) (dryRun : bool) (fixes : list ApprovedFix)
                          (files : list string) (s s' : Proc)
                          (results : list PatchResult) :
  applyFixes w dryRun fixes files s = (s', Returned results) ->
  fix_ <$> results = fixes
  /\ writesOf (calls s') = writesOf (calls s) ++ (file <$> appliedOf results)
  /\ asked s' = asked s + length (appliedOf results) + length (skippedOf results)
  /\ length (appliedOf results) + length (skippedOf results)
     + length (dryrunsOf results) + length (notFoundOf results) = length results
  /\ (if dryRun then appliedOf results = [] /\ skippedOf results = []
      else dryrunsOf results = []).
Proof.
  revert s results. induction fixes as [|fx rest IH]; intros s results.
  { intros [= <- <-]. simpl. rewrite app_nil_r.
    repeat split; try done; try lia. by destruct dryRun. }
  rewrite applyFixes_cons.
  destruct (patchFix w dryRun fx files s) as [s1 [r|msg|code]] eqn:Hfx; [|done|done].
  destruct (applyFixes w dryRun rest files s1) as [s2 [rs|msg|code]] eqn:Hrest;
    [|done|done].
  intros [= <- <-].
  destruct (IH _ _ Hrest) as (Hfixes & Hwrites & Hasked & Hcount & Hmode).
  unfold appliedOf, skippedOf, dryrunsOf, notFoundOf in *.
  apply patchFix_Returned in Hfx
    as [(_ & Hw & [(-> & Ha)|[(p & -> & -> & Ha)|(p & -> & -> & Ha)]])
       |(p & -> & -> & Ha & Hw)].
  - rewrite (filter_cons_no (fun r => applied r = true)) by done.
    rewrite (filter_cons_no (fun r => applied r = false /\ reason r = Some _))
      by (by intros [_ ?]).
    rewrite (filter_cons_no (fun r => reason r = Some _)) by done.
    rewrite (filter_cons_yes (fun r => applied r = false /\ reasonIncludes r _ = true))
      by (split; [done|by vm_compute]).
    rewrite !fmap_cons, Hfixes, Hwrites, Hw, Hasked, Ha. cbn [length fix_ file].
    split; [done|]. split; [done|]. split; [lia|]. split; [lia|]. done.
  - rewrite (filter_cons_no (fun r => applied r = true)) by done.
    rewrite (filter_cons_no (fun r => applied r = false /\ reason r = Some _))
      by (by intros [_ ?]).
    rewrite (filter_cons_yes (fun r => reason r = Some _)) by done.
    rewrite (filter_cons_no (fun r => applied r = false /\ reasonIncludes r _ = true))
      by (intros [_ Hinc]; by vm_compute in Hinc).
    rewrite !fmap_cons, Hfixes, Hwrites, Hw, Hasked, Ha. cbn [length fix_ file].
    split; [done|]. split; [done|]. split; [lia|]. split; [lia|]. done.
  - rewrite (filter_cons_no (fun r => applied r = true)) by done.
    rewrite (filter_cons_yes (fun r => applied r = false /\ reason r = Some _)) by done.
    rewrite (filter_cons_no (fun r => reason r = Some _)) by done.
    rewrite (filter_cons_no (fun r => applied r = false /\ reasonIncludes r _ = true))
      by (intros [_ Hinc]; by vm_compute in Hinc).
    rewrite !fmap_cons, Hfixes, Hwrites, Hw, Hasked, Ha. cbn [length fix_ file].
    split; [done|]. split; [done|]. split; [lia|]. split; [lia|]. done.
  - rewrite (filter_cons_yes (fun r => applied r = true)) by done.
    rewrite (filter_cons_no (fun r => applied r = false /\ reason r = Some _))
      by (by intros [? _]).
    rewrite (filter_cons_no (fun r => reason r = Some _)) by done.
    rewrite (filter_cons_no (fun r => applied r = false /\ reasonIncludes r _ = true))
      by (by intros [? _]).
    rewrite !fmap_cons, Hfixes, Hwrites, Hw, Hasked, Ha, <- app_assoc.
    cbn [length fix_ file].
    split; [done|]. split; [done|]. split; [lia|]. split; [lia|]. done.
Qed.

(** X3: a run of the loop over the approved fixes that completes has
    produced exactly one result per fix, in the order of the fixes, each
    carrying its fix. *)
Theorem applyFixes_one_result_per_fix (w : World) (dryRun : bool)
    (fixes : list ApprovedFix) (files : list string) (s s' : Proc)
    (results : list PatchResult) :
  applyFixes w dryRun fixes files s = (s', Returned results) ->
  fix_ <$> results = fixes.
Proof. intros Hrun. by apply applyFixes_Returned in Hrun as (? & _). Qed.

Lemma applyFixes_one_result_per_fix_witness :
  exists s' results,
    applyFixes MixedRun.world false MixedRun.fixes MixedRun.files
      (Scenario.start MixedRun.pages) = (s', Returned results)
    /\ fix_ <$> results = MixedRun.fixes.
Proof.
  eexists _, _. split; [vm_compute; reflexivity|].
  eapply (applyFixes_one_result_per_fix MixedRun.world false MixedRun.fixes
            MixedRun.files (Scenario.start MixedRun.pages)).
  vm_compute. reflexivity.
Defined.

(** X4: in a completed run the write calls issued are exactly the files
    of the results marked applied, one write each, in order. *)
Theorem applyFixes_writes_are_applied (w : World) (dryRun : bool)
    (fixes : list ApprovedFix) (files : list string) (s s' : Proc)
    (results : list PatchResult) :
  applyFixes w dryRun fixes files s = (s', Returned results) ->
  writesOf (calls s') = writesOf (calls s) ++ (file <$> appliedOf results).
Proof. intros Hrun. by apply applyFixes_Returned in Hrun as (_ & ? & _). Qed.

Lemma applyFixes_writes_are_applied_witness :
  exists s' results,
    applyFixes MixedRun.world false MixedRun.fixes MixedRun.files
      (Scenario.start MixedRun.pages) = (s', Returned results)
    /\ writesOf (calls s')
       = writesOf (calls (Scenario.start MixedRun.pages))
           ++ (file <$> appliedOf results).
Proof.
  eexists _, _. split; [vm_compute; reflexivity|].
  eapply (applyFixes_writes_are_applied MixedRun.world false MixedRun.fixes
            MixedRun.files (Scenario.start MixedRun.pages)).
  vm_compute. reflexivity.
Defined.

(** X5: a completed run has prompted the operator once for every result
    that is applied or skipped by the user and never otherwise; a dry run
    does not prompt at all. *)
Theorem applyFixes_prompts (w : World) (dryRun : bool)
    (fixes : list ApprovedFix) (files : list string) (s s' : Proc)
    (results : list PatchResult) :
  applyFixes w dryRun fixes files s = (s', Returned results) ->
  asked s' = asked s + length (appliedOf results) + length (skippedOf results)
  /\ (dryRun = true -> asked s' = asked s).
Proof.
  intros Hrun. apply applyFixes_Returned in Hrun as (_ & _ & Ha & _ & Hmode).
  split; [done|]. intros ->. destruct Hmode as [Happ Hskip].
  rewrite Ha, Happ, Hskip. simpl. lia.
Qed.

Lemma applyFixes_prompts_witness :
  exists s' results,
    applyFixes MixedRun.world false MixedRun.fixes MixedRun.files
      (Scenario.start MixedRun.pages) = (s', Returned results)
    /\ asked s' = asked (Scenario.start MixedRun.pages)
                  + length (appliedOf results) + length (skippedOf results).
Proof.
  eexists _, _. split; [vm_compute; reflexivity|].
  refine (proj1 (applyFixes_prompts MixedRun.world false MixedRun.fixes
                   MixedRun.files (Scenario.start MixedRun.pages) _ _ _)).
  vm_compute. reflexivity.
Defined.

(** X6: the summary counts of a completed run add up: in live mode every
    result is counted as applied, skipped or not found and none as a dry
    run; in dry-run mode every result is counted as a dry run or not
    found and none as applied or skipped. *)
Theorem summary_counts_add_up (w : World) (dryRun : bool)
    (fixes : list ApprovedFix) (files : list string) (s s' : Proc)
    (results : list PatchResult) :
  applyFixes w dryRun fixes files s = (s', Returned results) ->
  (dryRun = false ->
     length (appliedOf results) + length (skippedOf results)
     + length (notFoundOf results) = length fixes
     /\ dryrunsOf results = [])
  /\ (dryRun = true ->
        length (dryrunsOf results) + length (notFoundOf results) = length fixes
        /\ appliedOf results = [] /\ skippedOf results = []).
Proof.
  intros Hrun.
  apply applyFixes_Returned in Hrun as (Hfix & _ & _ & Hcount & Hmode).
  assert (length results = length fixes) as Hlen
    by (by rewrite <- Hfix, length_fmap).
  split; intros ->.
  - rewrite Hmode in Hcount. simpl in Hcount. split; [lia|done].
  - destruct Hmode as [Happ Hskip]. rewrite Happ, Hskip in Hcount.
    simpl in Hcount. split; [lia|done].
Qed.

Lemma summary_counts_add_up_witness :
  exists s' results,
    applyFixes MixedRun.world false MixedRun.fixes MixedRun.files
      (Scenario.start MixedRun.pages) = (s', Returned results)
    /\ (false = false ->
          length (appliedOf results) + length (skippedOf results)
          + length (notFoundOf results) = length MixedRun.fixes
          /\ dryrunsOf results = []).
Proof.
  eexists _, _. split; [vm_compute; reflexivity|].
  refine (proj1 (summary_counts_add_up MixedRun.world false MixedRun.fixes
                   MixedRun.files (Scenario.start MixedRun.pages) _ _ _)).
  vm_compute. reflexivity.
Defined.

Example mixed_run_summary :
  let out := applyFixes MixedRun.world false MixedRun.fixes MixedRun.files
               (Scenario.start MixedRun.pages) in
  (exists results,
      out.2 = Returned results
      /\ length (appliedOf results) = 1 /\ length (skippedOf results) = 1
      /\ length (notFoundOf results) = 1)
  /\ content <$> disk out.1 !! "a.html" = Some (lit "<p><em>a</em> and <i>a</i></p>")
  /\ disk out.1 !! "b.html" = MixedRun.pages !! "b.html".
Proof.
  split; [|by vm_compute].
  eexists. split; [vm_compute; reflexivity|]. by vm_compute.
Qed.

(* ---------- declining, missing snippets, plain replacements ---------- *)

Lemma patchFix_refused (w : World) (fx : ApprovedFix) (files : list string) (s : Proc) :
  (forall n, approves (operator w n) = false) ->
  disk (patchFix w false fx files s).1 = disk s
  /\ writesOf (calls (patchFix w false fx files s).1) = writesOf (calls s)
  /\ forall r, (patchFix w false fx files s).2 = Returned r -> applied r = false.
Proof.
  intros Hno. revert s. induction files as [|p rest IH]; intros s.
  { split; [done|split; [done|]]. by intros r [= <-]. }
  rewrite patchFix_cons.
  assert (writesOf (calls (logCall (CallRead p) s)) = writesOf (calls s)) as Hlog.
  { simpl. rewrite writesOf_app. simpl. by rewrite app_nil_r. }
  pose proof (readFileSync_state p s) as Hstate.
  destruct (readFileSync p s) as [s1 [original|msg|code]]; simpl in Hstate; subst s1;
    [|done|done].
  destruct (IH (logCall (CallRead p) s)) as (Hd & Hw & Hr).
  destruct (findInContent original (currentCode fx)) as [[|c t]|];
    [by rewrite Hw| |by rewrite Hw].
  simpl. rewrite Hno. split; [done|split; [done|]]. by intros r [= <-].
Qed.

(** X7: when the operator declines every prompt, a live run changes no
    file and issues no write call, however it ends, and no result it
    returns is marked applied. *)
Theorem declining_everything_writes_nothing (w : World)
    (fixes : list ApprovedFix) (files : list string) (s : Proc) :
  (forall n, approves (operator w n) = false) ->
  disk (applyFixes w false fixes files s).1 = disk s
  /\ writesOf (calls (applyFixes w false fixes files s).1) = writesOf (calls s)
  /\ forall results,
       (applyFixes w false fixes files s).2 = Returned results ->
       Forall (fun r => applied r = false) results.
Proof.
  intros Hno. revert s. induction fixes as [|fx rest IH]; intros s.
  { split; [done|split; [done|]]. intros results [= <-]. constructor. }
  rewrite applyFixes_cons.
  destruct (patchFix_refused w fx files s Hno) as (Hd & Hw & Hr).
  destruct (patchFix w false fx files s) as [s1 [r|msg|code]]; simpl in *;
    [|done|done].
  destruct (IH s1) as (Hd' & Hw' & Hr').
  destruct (applyFixes w false rest files s1) as [s2 [rs|msg|code]]; simpl in *;
    (split; [congruence|split; [congruence|]]); [|done|done].
  intros results [= <-]. constructor; [by apply Hr|by apply Hr'].
Qed.

Lemma declining_everything_writes_nothing_witness :
  disk (applyFixes MixedRun.refusing false MixedRun.fixes MixedRun.files
          (Scenario.start MixedRun.pages)).1
  = disk (Scenario.start MixedRun.pages).
Proof.
  refine (proj1 (declining_everything_writes_nothing MixedRun.refusing
                   MixedRun.fixes MixedRun.files (Scenario.start MixedRun.pages) _)).
  intros n. reflexivity.
Defined.

(** X8: when every source file can be read and none holds a match for
    the fix, the loop reads each file once, in order, asks nothing,
    writes nothing and returns the not-found result with an empty file
    name, in live and in dry-run mode alike. *)
Theorem patchFix_not_found (w : World) (dryRun : bool) (fx : ApprovedFix)
                           (files : list string) (s : Proc) :
  (forall q, q ∈ files ->
             exists f, disk s !! q = Some f /\ readable f = true
                       /\ hasMatch (disk s) fx q = false) ->
  patchFix w dryRun fx files s
  = (mkProc (disk s) (asked s) (calls s ++ (CallRead <$> files)),
     Returned (mkResult fx "" false (Some "currentCode not found in any file"))).
Proof.
  revert s. induction files as [|p rest IH]; intros s Hall.
  { simpl. rewrite app_nil_r. by destruct s. }
  rewrite patchFix_cons.
  destruct (Hall p) as (f & Hf & Hr & Hno); [by apply elem_of_cons; left|].
  unfold readFileSync. rewrite Hf, Hr.
  unfold hasMatch in Hno. rewrite Hf in Hno.
  assert (patchFix w dryRun fx rest (logCall (CallRead p) s)
          = (mkProc (disk s) (asked s) (calls s ++ (CallRead <$> p :: rest)),
             Returned (mkResult fx "" false (Some "currentCode not found in any file"))))
    as Hrest.
  { rewrite IH; [simpl; by rewrite <- app_assoc|].
    intros q Hq. apply Hall. by apply elem_of_cons; right. }
  by destruct (findInContent (content f) (currentCode fx)) as [[|c t]|].
Qed.

Lemma patchFix_not_found_witness :
  patchFix MixedRun.world false MixedRun.thirdFix MixedRun.files
    (Scenario.start MixedRun.pages)
  = (mkProc MixedRun.pages 0 (CallRead <$> MixedRun.files),
     Returned (mkResult MixedRun.thirdFix "" false
                 (Some "currentCode not found in any file"))).
Proof.
  apply (patchFix_not_found MixedRun.world false MixedRun.thirdFix MixedRun.files
           (Scenario.start MixedRun.pages)).
  intros q Hq.
  apply elem_of_cons in Hq as [->|Hq];
    [|apply elem_of_cons in Hq as [->|Hq]; [|by apply elem_of_nil in Hq]].
  - eexists. split; [reflexivity|]. split; [reflexivity|]. vm_compute. reflexivity.
  - eexists. split; [reflexivity|]. split; [reflexivity|]. vm_compute. reflexivity.
Defined.

Lemma findInContent_Some (H N r : str) :
  findInContent H N = Some r ->
  includes H r = true /\ normalizeWs r = normalizeWs N.
Proof.
  unfold findInContent. destruct (includes H N) eqn:Hv.
  - by intros [= <-].
  - destruct (includes (normalizeWs H) (normalizeWs N)); simpl; [|done].
    intros Hscan. apply scanStart_Some in Hscan as (i & _ & Hend & _).
    apply scanEnd_Some in Hend as (j & _ & -> & Hnorm & _).
    split; [|done]. apply includes_true. apply slice_is_span.
Qed.

(** X9: whatever [findInContent] returns occurs verbatim in the haystack
    and has the same normalization as the needle. *)
Theorem findInContent_sound (H N r : str) :
  findInContent H N = Some r ->
  includes H r = true /\ normalizeWs r = normalizeWs N.
Proof. apply findInContent_Some. Qed.

Lemma findInContent_sound_witness :
  includes (lit "<b>a   b</b>") (lit "a   b") = true
  /\ normalizeWs (lit "a   b") = normalizeWs (lit "a b").
Proof.
  apply (findInContent_sound (lit "<b>a   b</b>") (lit "a b") (lit "a   b")).
  vm_compute. reflexivity.
Defined.

Lemma indexOf_first (s p : str) (n : nat) :
  indexOf s p = Some n ->
  forall a b, s = a ++ p ++ b -> n <= length a.
Proof.
  revert n. induction s as [|c s IH]; intros n; cbn [indexOf].
  - destruct (startsWith [] p); [|done]. intros [= <-] a b _. lia.
  - destruct (startsWith (c :: s) p) eqn:Hstart.
    + intros [= <-] a b _. lia.
    + destruct (indexOf s p) as [k|] eqn:Hk; simpl; [|done].
      intros [= <-] a b Hab. destruct a as [|c' a].
      * simpl in Hab. by rewrite Hab, startsWith_app in Hstart.
      * injection Hab as -> Hab. simpl. specialize (IH k eq_refl a b Hab). lia.
Qed.

Lemma drop_past_middle (pre mid post : str) :
  drop (length pre + length mid) (pre ++ mid ++ post) = post.
Proof. by rewrite drop_app_add, drop_app_length. Qed.

Lemma toWellFormed_plain (s : str) :
  Forall (fun c => isSurrogate c = false) s -> toWellFormed s = s.
Proof.
  induction 1 as [|c s Hc _ IH]; [done|].
  unfold isSurrogate in Hc. apply orb_false_iff in Hc as [Hh Hl].
  cbn [toWellFormed]. by rewrite Hh, Hl, IH.
Qed.

(** X10: in live mode, when the operator confirms and the suggested fix
    contains no [$], the text written is the original text with the
    first occurrence of the matched span replaced by the suggested fix
    as it stands, and everything before and after it kept.  The file
    then holds that text as UTF-8 encodes it (an unpaired surrogate code
    unit becomes U+FFFD), which is that very text when the original text
    and the suggested fix contain no surrogate code units. *)
Theorem patchFix_plain_replacement (w : World) (fx : ApprovedFix) (p : string)
    (rest : list string) (s : Proc) (f : FileNode) (found : str) :
  disk s !! p = Some f -> readable f = true -> writable f = true ->
  findInContent (content f) (currentCode fx) = Some found -> found <> [] ->
  approves (operator w (asked s)) = true ->
  Forall (fun c => c <> 36%N) (suggestedFix fx) ->
  exists pre post,
    content f = pre ++ found ++ post
    /\ (forall a b, content f = a ++ found ++ b -> length pre <= length a)
    /\ calls (patchFix w false fx (p :: rest) s).1
       = calls s ++ [CallRead p; CallWrite p (pre ++ suggestedFix fx ++ post)]
    /\ content <$> disk (patchFix w false fx (p :: rest) s).1 !! p
       = Some (toWellFormed (pre ++ suggestedFix fx ++ post))
    /\ (Forall (fun c => isSurrogate c = false) (content f) ->
        Forall (fun c => isSurrogate c = false) (suggestedFix fx) ->
        content <$> disk (patchFix w false fx (p :: rest) s).1 !! p
        = Some (pre ++ suggestedFix fx ++ post)).
Proof.
  intros Hf Hr Hw Hfound Hne Hyes Hplain.
  rewrite (patchFix_live_write w fx p rest s f found) by done.
  destruct (findInContent_Some _ _ _ Hfound) as [Hinc _].
  unfold includes in Hinc. apply bool_decide_eq_true in Hinc as [pos Hpos].
  destruct (indexOf_Some _ _ _ Hpos) as (post & Hsplit & Hle).
  assert (replace (content f) found (suggestedFix fx)
          = take pos (content f) ++ suggestedFix fx ++ post) as ->.
  { rewrite (replace_plain _ _ _ pos) by done. do 2 f_equal.
    assert (length (take pos (content f)) = pos) as Hlen
      by (rewrite length_take; lia).
    rewrite <- Hlen at 1. rewrite Hsplit at 2. apply drop_past_middle. }
  exists (take pos (content f)), post.
  split; [done|]. split; [|split; [done|split]].
  - intros a b Hab. rewrite length_take.
    pose proof (indexOf_first _ _ _ Hpos a b Hab). lia.
  - simpl. by rewrite lookup_insert_eq.
  - intros Hcontent Hfix. simpl. rewrite lookup_insert_eq. simpl. f_equal.
    apply toWellFormed_plain.
    rewrite Hsplit in Hcontent.
    apply Forall_app in Hcontent as [Hpre [_ Hpost]%Forall_app].
    apply Forall_app. split; [done|]. by apply Forall_app.
Qed.

Lemma patchFix_plain_replacement_witness :
  exists pre post,
    lit "<p><i>a</i> and <i>a</i></p>" = pre ++ lit "<i>a</i>" ++ post
    /\ (forall a b, lit "<p><i>a</i> and <i>a</i></p>" = a ++ lit "<i>a</i>" ++ b ->
                    length pre <= length a)
    /\ calls (patchFix MixedRun.world false Scenario.firstFix ["a.html"]
                (Scenario.start MixedRun.pages)).1
       = calls (Scenario.start MixedRun.pages)
           ++ [CallRead "a.html";
               CallWrite "a.html" (pre ++ suggestedFix Scenario.firstFix ++ post)]
    /\ content <$> disk (patchFix MixedRun.world false Scenario.firstFix ["a.html"]
                           (Scenario.start MixedRun.pages)).1 !! "a.html"
       = Some (toWellFormed (pre ++ suggestedFix Scenario.firstFix ++ post))
    /\ (Forall (fun c => isSurrogate c = false) (lit "<p><i>a</i> and <i>a</i></p>") ->
        Forall (fun c => isSurrogate c = false) (suggestedFix Scenario.firstFix) ->
        content <$> disk (patchFix MixedRun.world false Scenario.firstFix ["a.html"]
                            (Scenario.start MixedRun.pages)).1 !! "a.html"
        = Some (pre ++ suggestedFix Scenario.firstFix ++ post)).
Proof.
  apply (patchFix_plain_replacement MixedRun.world Scenario.firstFix "a.html" []
           (Scenario.start MixedRun.pages)
           (mkFile (lit "<p><i>a</i> and <i>a</i></p>") true true) (lit "<i>a</i>")).
  - reflexivity.
  - reflexivity.
  - reflexivity.
  - vm_compute. reflexivity.
  - discriminate.
  - reflexivity.
  - vm_compute. repeat constructor; discriminate.
Defined.

(* ---------- the normal form of normalizeWs ---------- *)

Lemma replaceWsRuns_singleSpaced (p : bool) (s : str) :
  singleSpaced p (replaceWsRuns p s).
Proof.
  revert p. induction s as [|c s IH]; intros p; simpl; [done|].
  destruct (isWs c) eqn:Hc.
  - destruct p; [apply IH|]. simpl.
    change (isWs SP) with true. cbv iota. repeat split. apply IH.
  - simpl. rewrite Hc. apply IH.
Qed.

Lemma singleSpaced_fixed (p : bool) (s : str) :
  singleSpaced p s -> replaceWsRuns p s = s.
Proof.
  revert p. induction s as [|c s IH]; intros p; simpl; [done|].
  destruct (isWs c).
  - intros (-> & -> & Hrest). by rewrite IH.
  - intros Hrest. by rewrite IH.
Qed.

Lemma singleSpaced_weaken (p : bool) (s : str) :
  singleSpaced p s -> singleSpaced false s.
Proof.
  destruct s as [|c s]; simpl; [done|].
  destruct (isWs c); [|done]. by intros (-> & _ & ?).
Qed.

Lemma singleSpaced_suffix (p : bool) (a b : str) :
  singleSpaced p (a ++ b) -> singleSpaced false b.
Proof.
  revert p. induction a as [|c a IH]; intros p; simpl.
  - apply singleSpaced_weaken.
  - destruct (isWs c); [intros (_ & _ & Hrest)|intros Hrest]; by eapply IH.
Qed.

Lemma singleSpaced_prefix (p : bool) (a b : str) :
  singleSpaced p (a ++ b) -> singleSpaced p a.
Proof.
  revert p. induction a as [|c a IH]; intros p; simpl; [done|].
  destruct (isWs c).
  - intros (? & ? & Hrest). repeat split; try done. by eapply IH.
  - apply IH.
Qed.

Lemma normalizeWs_singleSpaced (s : str) : singleSpaced false (normalizeWs s).
Proof.
  unfold normalizeWs.
  destruct (trim_decomp (replaceWsRuns false s)) as (L & R & Hdecomp).
  pose proof (replaceWsRuns_singleSpaced false s) as Hcollapsed.
  rewrite Hdecomp in Hcollapsed.
  apply singleSpaced_suffix in Hcollapsed.
  by apply singleSpaced_prefix in Hcollapsed.
Qed.

Lemma trim_fixed (s : str) : s = [] \/ solid s -> trim s = s.
Proof. intros [->|Hs]; [done|by apply trim_solid]. Qed.

(** X11: [normalizeWs] is idempotent. *)
Theorem normalizeWs_idempotent (s : str) :
  normalizeWs (normalizeWs s) = normalizeWs s.
Proof.
  unfold normalizeWs at 1.
  rewrite (singleSpaced_fixed false) by apply normalizeWs_singleSpaced.
  apply trim_fixed, normalizeWs_cases.
Qed.

(** X12: the result of [normalizeWs] is empty or begins and ends with a
    code unit that is not whitespace, and its only whitespace is single
    U+0020 code units, never two in a row. *)
Theorem normalizeWs_normal_form (s : str) :
  (normalizeWs s = [] \/ solid (normalizeWs s))
  /\ singleSpaced false (normalizeWs s).
Proof. split; [apply normalizeWs_cases|apply normalizeWs_singleSpaced]. Qed.

Lemma replaceWsRuns_allWs (p : bool) (s : str) :
  allWs (replaceWsRuns p s) <-> allWs s.
Proof.
  revert p. induction s as [|c s IH]; intros p; simpl; [done|].
  destruct (isWs c) eqn:Hc.
  - destruct p.
    + rewrite IH. split; [by constructor|by intros [_ ?]%Forall_cons].
    + split.
      * intros [_ Hrest%IH]%Forall_cons. by constructor.
      * intros [_ Hrest]%Forall_cons. constructor; [done|by apply IH].
  - split; intros [Hc' _]%Forall_cons; congruence.
Qed.

Lemma trim_allWs (s : str) : allWs s -> trim s = [].
Proof.
  intros Hs. unfold trim, trimEnd.
  rewrite <- (app_nil_r s), trimStart_ws_app by done. done.
Qed.

(** X13: [normalizeWs] gives the empty string exactly on the texts made
    of whitespace only (the empty text among them). *)
Theorem normalizeWs_empty_iff (s : str) : normalizeWs s = [] <-> allWs s.
Proof.
  unfold normalizeWs. split.
  - intros Hempty.
    destruct (trim_decomp_ws (replaceWsRuns false s)) as (L & R & Hdecomp & HL & HR).
    rewrite Hempty in Hdecomp. simpl in Hdecomp.
    apply (replaceWsRuns_allWs false). rewrite Hdecomp. by apply Forall_app.
  - intros Hs. apply trim_allWs. by apply replaceWsRuns_allWs.
Qed.

(* ---------- command line ---------- *)

Lemma dryRunFlag_iff (argv : list string) :
  dryRunFlag argv = true <-> "--dry-run" ∈ argv.
Proof.
  unfold dryRunFlag, flagsOf. rewrite bool_decide_eq_true, list_elem_of_filter.
  split; [by intros [_ ?]|done].
Qed.

(** X14: the patch CLI looks only at the first two arguments that do not
    start with [--] and at whether [--dry-run] is present: two argument
    lists that agree on these behave alike, wherever the flags stand and
    whatever other flags or further arguments are given. *)
Theorem main_reads_two_args_and_dry_run (w : World) (argv argv' : list string) :
  take 2 (argsOf argv) = take 2 (argsOf argv') ->
  ("--dry-run" ∈ argv <-> "--dry-run" ∈ argv') ->
  main w argv = main w argv'.
Proof.
  intros Hargs Hflag.
  assert (dryRunFlag argv = dryRunFlag argv') as Hdry.
  { destruct (dryRunFlag argv) eqn:E, (dryRunFlag argv') eqn:E'; try done.
    - apply dryRunFlag_iff, Hflag, dryRunFlag_iff in E. congruence.
    - apply dryRunFlag_iff, Hflag, dryRunFlag_iff in E'. congruence. }
  unfold main. rewrite Hdry.
  destruct (argsOf argv) as [|a [|b l]], (argsOf argv') as [|a' [|b' l']];
    simpl in Hargs; try done.
  by injection Hargs as -> ->.
Qed.

Lemma main_reads_two_args_and_dry_run_witness :
  main Scenario.priceWorld ["--dry-run"; "report.json"; "--verbose"; "site"; "more"]
  = main Scenario.priceWorld ["report.json"; "site"; "--dry-run"].
Proof.
  apply (main_reads_two_args_and_dry_run Scenario.priceWorld
           ["--dry-run"; "report.json"; "--verbose"; "site"; "more"]
           ["report.json"; "site"; "--dry-run"]).
  - reflexivity.
  - split; intros _; repeat constructor.
Defined.

(* ---------- the audit script ---------- *)

Import Validator.

(** X15: the audit script's prompt declines only the lines that are
    exactly [n] or [N]; every line it declines is declined by the patch
    prompt as well, but not conversely: [" n"] approves here and declines
    there. *)
Theorem audit_prompt_declines_bare_n (answer : str) :
  (Audit.approves answer = false <-> answer = lit "n" \/ answer = lit "N")
  /\ (Audit.approves answer = false -> Patch.approves answer = false)
  /\ Audit.approves (lit " n") = true /\ Patch.approves (lit " n") = false.
Proof.
  assert (Audit.approves answer = false <-> answer = lit "n" \/ answer = lit "N")
    as Hbare.
  { unfold Audit.approves, strEq.
    rewrite negb_false_iff, bool_decide_eq_true.
    change (lit "n") with [110%N]. change (lit "N") with [78%N]. split.
    - destruct answer as [|c [|c' t]]; try done.
      intros [= Hc%lowerUnit_n]. destruct Hc as [->| ->]; auto.
    - by intros [->| ->]. }
  split; [done|]. split; [|by vm_compute].
  intros [->| ->]%Hbare; by vm_compute.
Qed.

Section AuditPhases.
Context {Page : Type}.
Variable validateFix : Page -> string -> str -> str -> Page * Settled.

Lemma validateIssues_cons (page : Page) (i : AccessibilityIssue)
                          (rest : list AccessibilityIssue) :
  (Audit.validateIssues validateFix page (i :: rest)).2
  = recordValidation i (validateFix page (element i) (suggestedFix i) (currentCode i)).2
    :: (Audit.validateIssues validateFix
          (validateFix page (element i) (suggestedFix i) (currentCode i)).1 rest).2.
Proof.
  cbn [Audit.validateIssues].
  destruct (validateFix page (element i) (suggestedFix i) (currentCode i)) as [page1 c].
  cbn [fst snd].
  by destruct (Audit.validateIssues validateFix page1 rest).
Qed.

Lemma recordValidation_issue (i : AccessibilityIssue) (c : Settled) :
  issue (recordValidation i c) = i.
Proof.
  destruct c as [r|msg]; [|done]. unfold recordValidation.
  destruct (method r); [destruct (passed r)|]; done.
Qed.

Lemma recordValidation_validated (i : AccessibilityIssue) (c : Settled) :
  status (recordValidation i c) = validated
  <-> exists r, c = Fulfilled r /\ method r = DomInjection /\ passed r = true.
Proof.
  destruct c as [r|msg]; unfold recordValidation.
  - destruct (method r) eqn:Hm; [destruct (passed r) eqn:Hp|]; simpl.
    + split; [intros _; by exists r|done].
    + split; [done|]. intros (r' & [= <-] & _ & Hp'). congruence.
    + split; [done|]. intros (r' & [= <-] & Hm' & _). congruence.
  - split; [done|]. by intros (r & ? & _).
Qed.

Lemma validateIssues_entry (page : Page) (issues : list AccessibilityIssue)
                           (v : ValidatedIssue) :
  v ∈ (Audit.validateIssues validateFix page issues).2 ->
  issue v ∈ issues
  /\ exists page',
       v = recordValidation (issue v)
             (validateFix page' (element (issue v)) (suggestedFix (issue v))
                (currentCode (issue v))).2.
Proof.
  revert page. induction issues as [|i rest IH]; intros page.
  { intros Hin. by apply elem_of_nil in Hin. }
  rewrite validateIssues_cons. intros [->|Hin]%elem_of_cons.
  - rewrite recordValidation_issue. split; [by apply elem_of_cons; left|].
    by exists page.
  - destruct (IH _ Hin) as [Hmem Hcall]. split; [by apply elem_of_cons; right|done].
Qed.

Lemma approveFixes_from_validated (operator : nat -> str) (asked : nat)
                                  (vs : list ValidatedIssue) (i : AccessibilityIssue) :
  i ∈ Audit.approveFixes operator asked vs -> exists v, v ∈ vs /\ issue v = i.
Proof.
  revert asked. induction vs as [|v vs IH]; intros asked; simpl.
  { intros Hin. by apply elem_of_nil in Hin. }
  destruct (Audit.approves (operator asked)).
  - intros [->|Hin]%elem_of_cons.
    + exists v. split; [by apply elem_of_cons; left|done].
    + destruct (IH _ Hin) as (v' & Hv' & <-). exists v'.
      split; [by apply elem_of_cons; right|done].
  - intros Hin. destruct (IH _ Hin) as (v' & Hv' & <-). exists v'.
    split; [by apply elem_of_cons; right|done].
Qed.

(** X17: every fix the approval phase collects is one of the report's
    issues whose [validateFix] call was fulfilled by DOM injection with
    [passed] true; an issue whose validation was skipped, failed or
    rejected is never among the approved fixes, whatever the operator
    answers. *)
Theorem approved_fixes_were_validated (operator : nat -> str) (page : Page)
    (issues : list AccessibilityIssue) (i : AccessibilityIssue) :
  i ∈ Audit.approvedFixes operator (Audit.validateIssues validateFix page issues).2 ->
  i ∈ issues
  /\ exists page' page'' r,
       validateFix page' (element i) (suggestedFix i) (currentCode i)
       = (page'', Fulfilled r)
       /\ method r = DomInjection /\ passed r = true.
Proof.
  unfold Audit.approvedFixes, Audit.validatedOf. intros Hin.
  apply approveFixes_from_validated in Hin as (v & Hv & <-).
  apply list_elem_of_filter in Hv as [Hstatus Hv].
  apply validateIssues_entry in Hv as [Hmem (page' & Hcall)].
  split; [done|]. rewrite Hcall in Hstatus.
  apply recordValidation_validated in Hstatus as (r & Hr & Hm & Hp).
  exists page'.
  destruct (validateFix page' (element (issue v)) (suggestedFix (issue v))
              (currentCode (issue v))) as [page'' c].
  simpl in Hr. subst c. eauto.
Qed.

(** X18: when the operator approves at every prompt, the approved fixes
    are exactly the issues recorded as validated, in order; when the
    operator declines at every prompt, nothing is approved. *)
Theorem approval_follows_the_answers (operator : nat -> str)
                                     (vs : list ValidatedIssue) :
  ((forall n, Audit.approves (operator n) = true) ->
   Audit.approvedFixes operator vs = issue <$> Audit.validatedOf vs)
  /\ ((forall n, Audit.approves (operator n) = false) ->
      Audit.approvedFixes operator vs = []).
Proof.
  unfold Audit.approvedFixes. generalize (Audit.validatedOf vs) as l.
  generalize 0 as asked. intros asked l. split; intros Hall; revert asked;
    induction l as [|v l IH]; intros asked; simpl; try done;
    rewrite Hall; [by rewrite IH|apply IH].
Qed.
End AuditPhases.

Lemma approved_fixes_were_validated_witness :
  let i := mkIssue "#buy" "Link has no name" (lit "<a>buy</a>") (lit "<a title='Buy'>buy</a>") in
  let vf := validateFix (mkBrowser (fun _ => None) (fun _ _ => []) (fun _ => true)) in
  i ∈ [i]
  /\ exists page' page'' r,
       vf page' (element i) (suggestedFix i) (currentCode i) = (page'', Fulfilled r)
       /\ method r = DomInjection /\ passed r = true.
Proof.
  apply (approved_fixes_were_validated
           (validateFix (mkBrowser (fun _ => None) (fun _ _ => []) (fun _ => true)))
           (fun _ => []) ValidatorScenario.page).
  vm_compute. repeat constructor.
Defined.

Lemma approval_follows_the_answers_witness :
  Audit.approvedFixes (fun _ => lit "No")
    [mkValidated (mkIssue "#buy" "Link has no name" (lit "<a>buy</a>") (lit "<a>Buy</a>"))
       validated None]
  = issue <$> Audit.validatedOf
      [mkValidated (mkIssue "#buy" "Link has no name" (lit "<a>buy</a>") (lit "<a>Buy</a>"))
         validated None].
Proof.
  refine (proj1 (approval_follows_the_answers (fun _ => lit "No") _) _).
  intros n. reflexivity.
Defined.

(* ---------- the text written to the report ---------- *)

Lemma restoreEAcute_keeps (a : N) (t : str) :
  a <> 0%N -> Audit.restoreEAcute (a :: t) = a :: Audit.restoreEAcute t.
Proof.
  intros Ha. apply N.eqb_neq in Ha.
  destruct t as [|c [|d t']]; cbn [Audit.restoreEAcute]; by rewrite ?Ha.
Qed.

Lemma restoreEAcute_clean (s : str) : 0%N ∉ s -> Audit.restoreEAcute s = s.
Proof.
  induction s as [|a s IH]; intros Hclean; [done|].
  apply not_elem_of_cons in Hclean as [Ha Hs].
  rewrite restoreEAcute_keeps by (by intros ->). by rewrite IH.
Qed.

Lemma restoreEAcute_length (n : nat) (s : str) :
  length s <= n -> length (Audit.restoreEAcute s) <= length s.
Proof.
  revert s. induction n as [|n IH]; intros s Hn.
  { destruct s; [done|simpl in Hn; lia]. }
  destruct s as [|a [|c [|d t']]]; simpl; try lia.
  simpl in Hn.
  destruct ((a =? 0)%N && ((c =? 101)%N || (c =? 69)%N) && (d =? 57)%N).
  - simpl. specialize (IH t' ltac:(lia)). lia.
  - simpl. specialize (IH (c :: d :: t') ltac:(simpl; lia)). simpl in IH. lia.
Qed.

Lemma dropNul_clean (s : str) : 0%N ∉ s -> Audit.dropNul s = s.
Proof.
  unfold Audit.dropNul, str. induction s as [|a s IH]; intros Hclean; [done|].
  apply not_elem_of_cons in Hclean as [Ha Hs].
  rewrite filter_cons, decide_True by done. by rewrite IH.
Qed.

Lemma dropNul_no_nul (s : str) : 0%N ∉ Audit.dropNul s.
Proof. unfold Audit.dropNul, str. by intros [? _]%list_elem_of_filter. Qed.

(** X19: the text the audit saves never contains a NUL code unit; a
    text without NUL is saved unchanged; scrubbing twice is scrubbing
    once; and the scrubbed text is never longer than the original. *)
Theorem scrub_removes_nul (value : str) :
  (0%N ∉ Audit.scrub value)
  /\ (0%N ∉ value -> Audit.scrub value = value)
  /\ Audit.scrub (Audit.scrub value) = Audit.scrub value
  /\ length (Audit.scrub value) <= length value.
Proof.
  assert (forall v, 0%N ∉ v -> Audit.scrub v = v) as Hclean.
  { intros v Hv. unfold Audit.scrub.
    by rewrite restoreEAcute_clean, dropNul_clean. }
  split; [apply dropNul_no_nul|]. split; [apply Hclean|].
  split; [apply Hclean, dropNul_no_nul|].
  unfold Audit.scrub, Audit.dropNul, str.
  pose proof (restoreEAcute_length (length value) value (le_n _)).
  pose proof (length_filter (fun c => c <> 0%N) (Audit.restoreEAcute value)). lia.
Qed.

Lemma scrub_removes_nul_witness :
  Audit.scrub (lit "cafe au lait") = lit "cafe au lait".
Proof.
  refine (proj1 (proj2 (scrub_removes_nul (lit "cafe au lait"))) _).
  vm_compute. intros Hin. repeat (apply elem_of_cons in Hin as [Hin|Hin]; [discriminate Hin|]).
  by apply elem_of_nil in Hin.
Defined.

(** X20: in a text that is otherwise free of NUL, a NUL followed by
    [e9] or [E9] is saved as the single code unit U+00E9, and the text
    around it is kept. *)
Theorem scrub_restores_e_acute (pre post : str) (e : N) :
  0%N ∉ pre -> 0%N ∉ post -> e = 101%N \/ e = 69%N ->
  Audit.scrub (pre ++ 0%N :: e :: 57%N :: post) = pre ++ 233%N :: post.
Proof.
  intros Hpre Hpost He. unfold Audit.scrub.
  assert (Audit.restoreEAcute (pre ++ 0%N :: e :: 57%N :: post) = pre ++ 233%N :: post)
    as ->.
  { induction pre as [|a pre IH]; simpl app.
    - simpl. destruct He as [->| ->]; simpl; by rewrite restoreEAcute_clean.
    - apply not_elem_of_cons in Hpre as [Ha Hpre].
      rewrite restoreEAcute_keeps by (by intros ->). by rewrite IH. }
  apply dropNul_clean. intros [Hin|Hin]%elem_of_app; [done|].
  apply elem_of_cons in Hin as [Hin|Hin]; done.
Qed.

Lemma scrub_restores_e_acute_witness :
  Audit.scrub (lit "R" ++ 0%N :: 101%N :: 57%N :: lit "sum")
  = lit "R" ++ 233%N :: lit "sum".
Proof.
  apply (scrub_restores_e_acute (lit "R") (lit "sum") 101%N).
  - vm_compute. intros Hin.
    repeat (apply elem_of_cons in Hin as [Hin|Hin]; [discriminate Hin|]).
    by apply elem_of_nil in Hin.
  - vm_compute. intros Hin.
    repeat (apply elem_of_cons in Hin as [Hin|Hin]; [discriminate Hin|]).
    by apply elem_of_nil in Hin.
  - by left.
Defined.

(* ---------- no file is listed twice ---------- *)

Lemma hasEntry_names (entries : Entries) (name : str) (node : Node) :
  hasEntry entries name node -> name ∈ names entries.
Proof.
  induction 1; simpl; apply elem_of_cons; [by left|by right].
Qed.

Lemma walkEntries_first_segment (entries : Entries) (dir p : list str) :
  p ∈ walkEntries dir entries ->
  exists name rel, p = dir ++ name :: rel /\ name ∈ names entries.
Proof.
  intros Hp.
  apply walkEntries_sound in Hp as (rel & leaf & -> & Hat & _).
  destruct Hat as [es name Hentry|es name sub rel Hentry _].
  - exists name, []. split; [done|]. by eapply hasEntry_names.
  - exists name, rel. split; [done|]. by eapply hasEntry_names.
Qed.

Lemma walkEntries_NoDup (entries : Entries) :
  uniqueNames entries -> forall dir, NoDup (walkEntries dir entries).
Proof.
  induction entries as [|name node IHnode rest IHrest| |sub IHsub]
    using Entries_tree_ind
    with (P0 := fun node =>
            match node with
            | File => True
            | Dir sub => uniqueNames sub -> forall dir, NoDup (walkEntries dir sub)
            end); try done.
  - intros _ dir. constructor.
  - intros (Hfresh & Hnode & Hrest) dir. cbn [walkEntries].
    apply NoDup_app. split; [|split; [|by apply IHrest]].
    + case_bool_decide; [constructor|].
      destruct node as [|sub]; [|by apply IHnode].
      destruct (hasHtmlExtension name); [apply NoDup_singleton|constructor].
    + intros p Hfirst Hlater.
      apply walkEntries_first_segment in Hlater as (name' & rel' & Hp' & Hname').
      assert (exists rel, p = dir ++ name :: rel) as [rel Hp].
      { case_bool_decide; [by apply elem_of_nil in Hfirst|].
        destruct node as [|sub].
        - destruct (hasHtmlExtension name); [|by apply elem_of_nil in Hfirst].
          apply list_elem_of_singleton in Hfirst as ->. by exists [].
        - apply walkEntries_first_segment in Hfirst as (n1 & r1 & -> & _).
          exists (n1 :: r1). by rewrite <- app_assoc. }
      rewrite Hp in Hp'. apply app_inv_head in Hp'. injection Hp' as -> _.
      done.
Qed.

(** X21: when no directory lists a name twice, [walkDir] returns no path
    twice. *)
Theorem walkDir_lists_each_file_once (dir : list str) (entries : Entries)
                                     (files : list (list str)) :
  uniqueNames entries ->
  Discovery.walkDir dir (Some (Dir entries)) = Returned files ->
  NoDup files.
Proof. intros Hunique [= <-]. by apply walkEntries_NoDup. Qed.

Lemma walkDir_lists_each_file_once_witness :
  NoDup [[lit "site"; lit "index.html"]; [lit "site"; lit "docs"; lit "Guide.HTM"];
         [lit "site"; lit "about.xhtml"]].
Proof.
  apply (walkDir_lists_each_file_once [lit "site"] site).
  - simpl. repeat split; try done;
      intros Hin; repeat (apply elem_of_cons in Hin as [Hin|Hin]; [discriminate Hin|]);
      by apply elem_of_nil in Hin.
  - vm_compute. reflexivity.
Defined.

Lemma walkDir_exactly_html_files_witness :
  exists files,
    Discovery.walkDir [lit "site"] (Some (Dir site)) = Returned files
    /\ [lit "site"; lit "docs"; lit "Guide.HTM"] ∈ files.
Proof.
  apply (proj2 (walkDir_exactly_html_files [lit "site"] site
                  [lit "site"; lit "docs"; lit "Guide.HTM"])).
  exists [lit "docs"; lit "Guide.HTM"], (lit "Guide.HTM").
  split; [reflexivity|]. split.
  - eapply fileAt_below; [apply hasEntry_later, hasEntry_here|].
    apply fileAt_here, hasEntry_here.
  - split; [|split; [reflexivity|by vm_compute]].
    repeat constructor; intros Hin;
      repeat (apply elem_of_cons in Hin as [Hin|Hin]; [discriminate Hin|]);
      by apply elem_of_nil in Hin.
Defined.

Example walkDir_site :
  Discovery.walkDir [lit "site"] (Some (Dir site))
  = Returned [[lit "site"; lit "index.html"]; [lit "site"; lit "docs"; lit "Guide.HTM"];
              [lit "site"; lit "about.xhtml"]].
Proof. by vm_compute. Qed.

(* ---------- whitespace never hides a snippet ---------- *)

(** X22: when the haystack holds a piece that differs from the needle in
    whitespace only (their normalizations agree and are not empty),
    [findInContent] returns a non-empty span with that normalization, so
    the patch loop treats the file as a match. *)
Theorem findInContent_tolerates_whitespace (A M B N : str) :
  normalizeWs M = normalizeWs N -> normalizeWs N <> [] ->
  exists r, findInContent (A ++ M ++ B) N = Some r
            /\ truthy (Some r) = true
            /\ normalizeWs r = normalizeWs N.
Proof.
  intros Hsame Hne.
  assert (forall r, findInContent (A ++ M ++ B) N = Some r ->
                    truthy (Some r) = true /\ normalizeWs r = normalizeWs N) as Hres.
  { intros r Hr. apply findInContent_Some in Hr as [_ Hnorm].
    split; [|done]. destruct r; [|done]. by rewrite <- Hnorm in Hne. }
  assert (includes (normalizeWs (A ++ M ++ B)) (normalizeWs N) = true) as Hn.
  { rewrite <- Hsame. apply includes_normalized, includes_true. by exists A, B. }
  destruct (findInContent (A ++ M ++ B) N) as [r|] eqn:Hfind.
  { exists r. split; [done|]. by apply Hres. }
  exfalso. unfold findInContent in Hfind.
  destruct (includes (A ++ M ++ B) N); [done|]. rewrite Hn in Hfind. simpl in Hfind.
  assert (A ++ M ++ B <> []) as Hnonempty.
  { intros Hnil. apply app_eq_nil in Hnil as [_ [-> _]%app_eq_nil].
    by rewrite <- Hsame in Hne. }
  destruct (scanStart_complete _ _ Hnonempty (normalizeWs_cases N) Hn) as [r Hr].
  congruence.
Qed.

Lemma findInContent_tolerates_whitespace_witness :
  exists r, findInContent (lit "<p>" ++ lit "Hello   World" ++ lit "</p>") (lit "Hello World")
            = Some r
            /\ truthy (Some r) = true
            /\ normalizeWs r = normalizeWs (lit "Hello World").
Proof.
  apply (findInContent_tolerates_whitespace (lit "<p>") (lit "Hello   World")
           (lit "</p>") (lit "Hello World")).
  - vm_compute. reflexivity.
  - discriminate.
Defined.

(* ---------- the fallback report file ---------- *)

Lemma strLeb_refl (a : str) : Audit.strLeb a a = true.
Proof.
  induction a as [|x a IH]; simpl; [done|].
  by rewrite N.eqb_refl, IH, orb_true_r.
Qed.

Lemma strLeb_total (a b : str) : Audit.strLeb a b = true \/ Audit.strLeb b a = true.
Proof.
  revert b. induction a as [|x a IH]; intros [|y b]; simpl; auto.
  destruct (N.ltb_spec x y), (N.ltb_spec y x), (N.eqb_spec x y), (N.eqb_spec y x);
    simpl; auto; lia.
Qed.

Lemma strLeb_trans (a b c : str) :
  Audit.strLeb a b = true -> Audit.strLeb b c = true -> Audit.strLeb a c = true.
Proof.
  revert b c. induction a as [|x a IH]; intros [|y b] [|z c]; simpl; try done.
  destruct (N.ltb_spec x y), (N.ltb_spec y z), (N.ltb_spec x z),
           (N.eqb_spec x y), (N.eqb_spec y z), (N.eqb_spec x z);
    simpl; try done; try lia; subst; apply IH.
Qed.

#[local] Instance strLe_total : Total Audit.strLe.
Proof. intros a b. apply strLeb_total. Qed.

#[local] Instance strLe_trans : Transitive Audit.strLe.
Proof. intros a b c. apply strLeb_trans. Qed.

Lemma StronglySorted_last {A} (R : relation A) `{!Reflexive R} (l : list A) (x : A) :
  StronglySorted R l -> last l = Some x -> forall y, y ∈ l -> R y x.
Proof.
  intros Hsorted Hlast y Hy.
  destruct (last_Some l x) as [[l' ->] _]; [done|].
  apply elem_of_app in Hy as [Hy|Hy].
  - eapply StronglySorted_app_1_elem_of; [done|done|]. by apply list_elem_of_singleton.
  - apply list_elem_of_singleton in Hy as ->. reflexivity.
Qed.

#[local] Instance strLe_refl : Reflexive Audit.strLe.
Proof. intros a. apply strLeb_refl. Qed.

(** X23: the report file the audit falls back on is a listed name with
    the report prefix and the [.json] suffix that is greatest in
    code-unit order among all such names; and a file is found whenever
    the directory lists at least one such name. *)
Theorem latestReport_is_greatest (entries : list str) :
  (forall f, Audit.latestReport entries = Some f ->
             f ∈ entries /\ Audit.isReportName f = true
             /\ forall g, g ∈ entries -> Audit.isReportName g = true ->
                          Audit.strLeb g f = true)
  /\ (Audit.latestReport entries = None
      <-> forall g, g ∈ entries -> Audit.isReportName g = false).
Proof.
  unfold Audit.latestReport. rewrite head_reverse.
  set (candidates := filter (fun f => Audit.isReportName f = true) entries).
  pose proof (merge_sort_Permutation Audit.strLe candidates) as Hperm.
  pose proof (StronglySorted_merge_sort Audit.strLe candidates) as Hsorted.
  split.
  - intros f Hlast.
    assert (f ∈ candidates) as Hf.
    { rewrite <- Hperm. destruct (last_Some (merge_sort Audit.strLe candidates) f)
        as [[l' Hl'] _]; [done|]. rewrite Hl'. apply elem_of_app. right.
      by apply list_elem_of_singleton. }
    apply list_elem_of_filter in Hf as [Hname Hf].
    split; [done|]. split; [done|]. intros g Hg Hgname.
    apply (StronglySorted_last Audit.strLe _ f Hsorted Hlast).
    rewrite Hperm. by apply list_elem_of_filter.
  - rewrite last_None. split.
    + intros Hnil g Hg. destruct (Audit.isReportName g) eqn:Hname; [|done].
      exfalso. assert (g ∈ merge_sort Audit.strLe candidates) as Hin
        by (rewrite Hperm; by apply list_elem_of_filter).
      rewrite Hnil in Hin. by apply elem_of_nil in Hin.
    + intros Hnone. clear Hperm Hsorted.
      assert (candidates = []) as ->; [|done].
      destruct candidates as [|g l] eqn:Hc; [done|exfalso].
      assert (g ∈ filter (fun f => Audit.isReportName f = true) entries) as Hg
        by (fold candidates; rewrite Hc; by apply elem_of_cons; left).
      apply list_elem_of_filter in Hg as [Hname Hg].
      by rewrite (Hnone g Hg) in Hname.
Qed.

Lemma latestReport_is_greatest_witness :
  lit "accessibility-report-B.json" ∈ [lit "accessibility-report-A.json"; lit "accessibility-report-B.json"]
  /\ Audit.isReportName (lit "accessibility-report-B.json") = true
  /\ forall g, g ∈ [lit "accessibility-report-A.json"; lit "accessibility-report-B.json"] ->
               Audit.isReportName g = true ->
               Audit.strLeb g (lit "accessibility-report-B.json") = true.
Proof.
  apply (proj1 (latestReport_is_greatest
                  [lit "accessibility-report-A.json"; lit "accessibility-report-B.json"])).
  vm_compute. reflexivity.
Defined.

Example latestReport_picks_last :
  Audit.latestReport
    [lit "accessibility-report-2026-01-02T10-00-00-000Z.json"; lit "notes.json";
     lit "accessibility-report-2026-03-01T09-30-00-000Z.json";
     lit "accessibility-report-2026-03-01T09-30-00-000Z.txt"]
  = Some (lit "accessibility-report-2026-03-01T09-30-00-000Z.json").
Proof. by vm_compute. Qed.

(* ---------- the extracted code ---------- *)

Import Tools.

Lemma trim_empty_iff (s : str) : trim s = [] <-> allWs s.
Proof.
  split; [|apply trim_allWs]. intros Hempty.
  destruct (trim_decomp_ws s) as (L & R & Hdecomp & HL & HR).
  rewrite Hempty in Hdecomp. rewrite Hdecomp. by apply Forall_app.
Qed.

Lemma finalCurrentCode_cases (currentCode rawHTML selector : str) :
  (finalCurrentCode currentCode rawHTML selector = currentCode
   /\ currentCode <> [] /\ currentCode <> lit "null" /\ ~ allWs currentCode)
  \/ (finalCurrentCode currentCode rawHTML selector = rawHTML /\ rawHTML <> [])
  \/ finalCurrentCode currentCode rawHTML selector = placeholder selector.
Proof.
  unfold finalCurrentCode, strEq.
  destruct (decide (currentCode = [])) as [Hcc|Hcc];
    [rewrite (bool_decide_eq_true_2 _ Hcc)|rewrite (bool_decide_eq_false_2 _ Hcc)];
    simpl.
  2: destruct (decide (currentCode = lit "null")) as [Hnull|Hnull];
    [rewrite (bool_decide_eq_true_2 _ Hnull)|rewrite (bool_decide_eq_false_2 _ Hnull)];
    simpl.
  3: destruct (decide (trim currentCode = [])) as [Hblank|Hblank];
    [rewrite (bool_decide_eq_true_2 _ Hblank)|rewrite (bool_decide_eq_false_2 _ Hblank)];
    simpl.
  4: { left. repeat split; try done. by intros ?%trim_empty_iff. }
  all: destruct (decide (rawHTML = [])) as [Hraw|Hraw];
    [rewrite (bool_decide_eq_true_2 _ Hraw)|rewrite (bool_decide_eq_false_2 _ Hraw)];
    simpl; auto.
Qed.

(** X24: the code the extraction tool reports is never the empty string;
    it is the string [null] only when the raw markup read from the page
    is, and it is blank only when that raw markup is; a usable extracted
    snippet is reported as it is. *)
Theorem finalCurrentCode_guarantee (currentCode rawHTML selector : str) :
  finalCurrentCode currentCode rawHTML selector <> []
  /\ (finalCurrentCode currentCode rawHTML selector = lit "null" -> rawHTML = lit "null")
  /\ (allWs (finalCurrentCode currentCode rawHTML selector) ->
      finalCurrentCode currentCode rawHTML selector = rawHTML)
  /\ (currentCode <> [] -> currentCode <> lit "null" -> ~ allWs currentCode ->
      finalCurrentCode currentCode rawHTML selector = currentCode).
Proof.
  assert (~ allWs (placeholder selector)) as Hplace.
  { unfold placeholder. intros Hws. apply Forall_app in Hws as [Hws _].
    apply Forall_cons in Hws as [Hws _]. by vm_compute in Hws. }
  split; [|split; [|split]].
  - destruct (finalCurrentCode_cases currentCode rawHTML selector)
      as [(-> & ? & _)|[(-> & ?)| ->]]; done.
  - destruct (finalCurrentCode_cases currentCode rawHTML selector)
      as [(-> & _ & ? & _)|[(-> & _)| ->]]; done.
  - destruct (finalCurrentCode_cases currentCode rawHTML selector)
      as [(-> & _ & _ & ?)|[(-> & _)| ->]]; done.
  - intros Hcc Hnull Hblank. unfold finalCurrentCode, strEq.
    rewrite (bool_decide_eq_false_2 (currentCode = [])) by done.
    rewrite (bool_decide_eq_false_2 (currentCode = lit "null")) by done.
    by rewrite (bool_decide_eq_false_2 (trim currentCode = []))
      by (by intros ?%trim_empty_iff).
Qed.

Lemma finalCurrentCode_guarantee_witness :
  finalCurrentCode (lit "<a>buy</a>") (lit "<a>Buy</a>") (lit "#buy") = lit "<a>buy</a>".
Proof.
  refine (proj2 (proj2 (proj2 (finalCurrentCode_guarantee (lit "<a>buy</a>")
                                 (lit "<a>Buy</a>") (lit "#buy")))) _ _ _).
  - discriminate.
  - discriminate.
  - intros Hws. apply Forall_cons in Hws as [Hws _]. by vm_compute in Hws.
Defined.
